(** * goprb: a fixed-capacity priority ring buffer

    Shallow embedding of the final iteration of package [prb]
    ([New], [Insert], [bubbleElement], [shouldSwap], [Dequeue], [Peek],
    [PeekMaxPriority], [Search] and its filter constructors, [Len]) and
    the properties of its documentation that were checked against it.
    The earlier iteration of [New], [Insert], [Dequeue], [PeekHead],
    [Size] and [Capacity], kept in the same file, is in module [Earlier].

    Conventions of the embedding.
    - A method with receiver [b *PriorityRingBuffer[T]] is a function from
      the buffer before the call to [option (result * buffer after)];
      [None] is a Go run-time panic (index out of range, division by zero).
    - A Go slice is a [list]; [s[i]] is [slice_get], [s[i] = x] is
      [slice_set], both with Go's bounds check.
    - [make([]Element[T], n)] does not return for every [n]: it panics on a
      negative length and on one the runtime cannot allocate ("makeslice:
      len out of range", or the process dies out of memory).  The largest
      length it allocates depends on the element type, the platform and
      the memory at hand; it is the parameter [make_limit], and [New]
      returns [None] when [make] does not return.
    - [int] values that are indices, lengths or priorities are in [Z].
      An index never leaves [-1, 2 * capacity), and [capacity] is the
      length of an allocated slice, so index arithmetic stays far from the
      end of the 64-bit range and is written without wrap-around.  The
      insertion counter is an [int64] that grows by one on every [Insert];
      its increment wraps ([int64_wrap]).
    - [%] is Go's truncated remainder, [Z.rem].
    - The mutex only serialises calls; a call is one atomic step here. *)

From Stdlib Require Import ZArith Lia List Permutation Sorted String.
From stdpp Require Import base option list.

Local Open Scope Z_scope.

(** ** Go primitives *)

Definition int64_wrap (z : Z) : Z := (z + 2 ^ 63) mod 2 ^ 64 - 2 ^ 63.

Definition go_rem (a m : Z) : option Z :=
  if m =? 0 then None else Some (Z.rem a m).

Definition slice_get {A : Type} (s : list A) (i : Z) : option A :=
  if (0 <=? i) && (i <? Z.of_nat (length s)) then s !! Z.to_nat i else None.

Definition slice_set {A : Type} (s : list A) (i : Z) (x : A) : option (list A) :=
  if (0 <=? i) && (i <? Z.of_nat (length s)) then Some (<[Z.to_nat i := x]> s)
  else None.

(** ** Errors

    The four package-level error variables are distinct values; a call of
    [errors.New] at run time allocates a value that is equal to none of
    them, whatever its text. *)

Inductive error : Type :=
| ErrInvalidCapacity
| ErrInvalidWindow
| ErrBufferEmpty
| ErrBufferFull
| errors_New (text : string).

Definition Error (e : error) : string :=
  match e with
  | ErrInvalidCapacity => "capacity must be positive"
  | ErrInvalidWindow =>
      "bubbleWindow must be zero or positive and less than capacity"
  | ErrBufferEmpty => "buffer is empty"
  | ErrBufferFull =>
      "buffer is full, refused to overwrite higher priority element"
  | errors_New text => text
  end.

Record Config : Type := {
  Capacity : Z;
  BubbleWindow : Z;
  OverwriteGuard : bool;
  ThreadSafe : bool
}.

Section PRB.

Context {T : Type} `{EqDecision T} (make_limit : N) (zeroT : T).

Record Element : Type := {
  Value : T;
  Priority : Z;
  InsertionOrder : Z
}.

Record PriorityRingBuffer : Type := {
  elements : list Element;
  capacity : Z;
  head : Z;
  tail : Z;
  size : Z;
  bubbleWindow : Z;
  orderCounter : Z;
  overwriteGuard : bool
}.

(** [Element[T]{}] *)
Definition zeroElement : Element :=
  {| Value := zeroT; Priority := 0; InsertionOrder := 0 |}.

Definition set_elements (els : list Element) (b : PriorityRingBuffer) :=
  {| elements := els; capacity := capacity b; head := head b; tail := tail b;
     size := size b; bubbleWindow := bubbleWindow b;
     orderCounter := orderCounter b; overwriteGuard := overwriteGuard b |}.

Definition set_head (h : Z) (b : PriorityRingBuffer) :=
  {| elements := elements b; capacity := capacity b; head := h; tail := tail b;
     size := size b; bubbleWindow := bubbleWindow b;
     orderCounter := orderCounter b; overwriteGuard := overwriteGuard b |}.

Definition set_tail (t : Z) (b : PriorityRingBuffer) :=
  {| elements := elements b; capacity := capacity b; head := head b; tail := t;
     size := size b; bubbleWindow := bubbleWindow b;
     orderCounter := orderCounter b; overwriteGuard := overwriteGuard b |}.

Definition set_size (n : Z) (b : PriorityRingBuffer) :=
  {| elements := elements b; capacity := capacity b; head := head b;
     tail := tail b; size := n; bubbleWindow := bubbleWindow b;
     orderCounter := orderCounter b; overwriteGuard := overwriteGuard b |}.

Definition set_orderCounter (c : Z) (b : PriorityRingBuffer) :=
  {| elements := elements b; capacity := capacity b; head := head b;
     tail := tail b; size := size b; bubbleWindow := bubbleWindow b;
     orderCounter := c; overwriteGuard := overwriteGuard b |}.

(** ** Construction *)

(** [make([]Element[T], n)]: [n] zero-valued elements, or no return. *)
Definition make (n : Z) : option (list Element) :=
  if (n <? 0) || (n >? Z.of_N make_limit) then None
  else Some (replicate (Z.to_nat n) zeroElement).

Definition New (config : Config)
  : option (option PriorityRingBuffer * option error) :=
  if Capacity config <=? 0 then Some (None, Some ErrInvalidCapacity)
  else if (BubbleWindow config <? 0)
          || (BubbleWindow config >? Capacity config - 1)
  then Some (None, Some ErrInvalidWindow)
  else
    slots ← make (Capacity config);
    Some (Some {| elements := slots;
                  capacity := Capacity config;
                  head := 0; tail := 0; size := 0;
                  bubbleWindow := BubbleWindow config;
                  orderCounter := 0;
                  overwriteGuard := OverwriteGuard config |},
          None).

(** ** Insertion and the bounded local reorder *)

Definition shouldSwap (current previous : Element) : bool :=
  (Priority current >? Priority previous)
  || ((Priority current =? Priority previous)
      && (InsertionOrder current <? InsertionOrder previous)).

(** The loop of [bubbleElement]; [n] counts the iterations that the loop
    counter [i] still allows ([i] runs from 1 to [bubbleWindow] and is not
    otherwise used). *)
Fixpoint bubble_loop (n : nat) (insertIndex : Z) (b : PriorityRingBuffer)
  : option PriorityRingBuffer :=
  match n with
  | O => Some b
  | S n' =>
      if negb (size b >? 0) then Some b
      else
        previousIndex ← go_rem (insertIndex - 1 + capacity b) (capacity b);
        if (size b =? capacity b) && (previousIndex =? head b) then Some b
        else
          current ← slice_get (elements b) insertIndex;
          previous ← slice_get (elements b) previousIndex;
          if shouldSwap current previous then
            els1 ← slice_set (elements b) insertIndex previous;
            els2 ← slice_set els1 previousIndex current;
            bubble_loop n' previousIndex (set_elements els2 b)
          else Some b
  end.

Definition bubbleElement (insertIndex : Z) (b : PriorityRingBuffer)
  : option PriorityRingBuffer :=
  bubble_loop (Z.to_nat (bubbleWindow b)) insertIndex b.

Definition Insert (value : T) (priority : Z) (b0 : PriorityRingBuffer)
  : option (option error * PriorityRingBuffer) :=
  let element := {| Value := value; Priority := priority;
                    InsertionOrder := orderCounter b0 |} in
  let b := set_orderCounter (int64_wrap (orderCounter b0 + 1)) b0 in
  let overwriting := size b =? capacity b in
  let insertIndex := tail b in
  refused ← (if overwriting && overwriteGuard b
             then victim ← slice_get (elements b) (head b);
                  Some (priority <=? Priority victim)
             else Some false);
  if refused : bool then Some (Some ErrBufferFull, b)
  else
    els ← slice_set (elements b) insertIndex element;
    b ← bubbleElement insertIndex (set_elements els b);
    t ← go_rem (tail b + 1) (capacity b);
    let b := set_tail t b in
    Some (None, if overwriting then set_head (tail b) b
                else set_size (size b + 1) b).

(** ** Removal and queries *)

Definition Dequeue (b : PriorityRingBuffer)
  : option ((Element * option error) * PriorityRingBuffer) :=
  if size b =? 0 then Some ((zeroElement, Some ErrBufferEmpty), b)
  else
    element ← slice_get (elements b) (head b);
    h ← go_rem (head b + 1) (capacity b);
    Some ((element, None), set_size (size b - 1) (set_head h b)).

Definition Peek (b : PriorityRingBuffer)
  : option ((Element * option error) * PriorityRingBuffer) :=
  if size b =? 0 then Some ((zeroElement, Some ErrBufferEmpty), b)
  else
    element ← slice_get (elements b) (head b);
    Some ((element, None), b).

(** The scan of [PeekMaxPriority]: [n] iterations remain, the loop counter
    is [i]. *)
Fixpoint peekMax_loop (n : nat) (i maxIndex : Z) (b : PriorityRingBuffer)
  : option Z :=
  match n with
  | O => Some maxIndex
  | S n' =>
      index ← go_rem (head b + i) (capacity b);
      candidate ← slice_get (elements b) index;
      currMax ← slice_get (elements b) maxIndex;
      peekMax_loop n' (i + 1)
        (if (Priority candidate >? Priority currMax)
            || ((Priority candidate =? Priority currMax)
                && (InsertionOrder candidate <? InsertionOrder currMax))
         then index else maxIndex) b
  end.

Definition PeekMaxPriority (b : PriorityRingBuffer)
  : option ((Element * option error) * PriorityRingBuffer) :=
  if size b =? 0
  then Some ((zeroElement, Some (errors_New "buffer is empty")), b)
  else
    maxIndex ← peekMax_loop (Z.to_nat (size b - 1)) 1 (head b) b;
    element ← slice_get (elements b) maxIndex;
    Some ((element, None), b).

Definition SearchFilter : Type := Element → bool.

(** The inner loop of [Search] over the filters, with its [break]. *)
Fixpoint matchAll (filters : list SearchFilter) (element : Element) : bool :=
  match filters with
  | [] => true
  | filter :: rest =>
      if negb (filter element) then false else matchAll rest element
  end.

Fixpoint search_loop (filters : list SearchFilter) (n : nat) (i : Z)
    (result : list Z) (b : PriorityRingBuffer) : option (list Z) :=
  match n with
  | O => Some result
  | S n' =>
      index ← go_rem (head b + i) (capacity b);
      element ← slice_get (elements b) index;
      search_loop filters n' (i + 1)
        (if matchAll filters element then result ++ [i] else result) b
  end.

Definition Search (filters : list SearchFilter) (b : PriorityRingBuffer)
  : option (list Z * PriorityRingBuffer) :=
  result ← search_loop filters (Z.to_nat (size b)) 0 [] b;
  Some (result, b).

Definition SearchByValue (value : T) : SearchFilter :=
  fun e => bool_decide (Value e = value).

Definition SearchByPriority (priority : Z) : SearchFilter :=
  fun e => Priority e =? priority.

Definition SearchByMinPriority (minPriority : Z) : SearchFilter :=
  fun e => Priority e >=? minPriority.

Definition Len (b : PriorityRingBuffer) : option (Z * PriorityRingBuffer) :=
  Some (size b, b).

End PRB.

Arguments Element : clear implicits.
Arguments PriorityRingBuffer : clear implicits.
Arguments SearchFilter : clear implicits.

(** ** Notions used to state the properties *)

Section Notions.

Context {T : Type}.
Implicit Types (b : PriorityRingBuffer T) (e : Element T).

(** The element built by the first statement of [Insert]. *)
Definition newElement (value : T) (priority : Z) b : Element T :=
  {| Value := value; Priority := priority; InsertionOrder := orderCounter b |}.

(** The slot at logical offset [i] from [head]. *)
Definition live_slot b (i : Z) : option (Element T) :=
  index ← go_rem (head b + i) (capacity b);
  slice_get (elements b) index.

(** The [size] logically-live slots, in logical order from [head]. *)
Definition live b : list (Element T) :=
  omap (live_slot b) (seqZ 0 (size b)).

(** [Search] as the documentation words it: the offsets [0 .. size - 1]
    from [head], in that order, whose element satisfies every filter. *)
Definition satisfies_all (filters : list (SearchFilter T)) e : bool :=
  forallb (λ filter, filter e) filters.

Definition matches_at (filters : list (SearchFilter T)) b (i : Z) : bool :=
  match live_slot b i with
  | Some e => satisfies_all filters e
  | None => false
  end.

Definition Search_spec (filters : list (SearchFilter T)) b : list Z :=
  List.filter (matches_at filters b) (seqZ 0 (size b)).

(** Representation invariant of a constructed buffer. *)
Record wf b : Prop := {
  wf_length : Z.of_nat (length (elements b)) = capacity b;
  wf_capacity : 0 < capacity b;
  wf_head : 0 <= head b < capacity b;
  wf_tail : 0 <= tail b < capacity b;
  wf_size : 0 <= size b <= capacity b;
  wf_ring : tail b = (head b + size b) mod capacity b;
  wf_window : 0 <= bubbleWindow b <= capacity b - 1
}.

(** The buffer an accepted [Insert] leaves, given the slots [els] that the
    local reorder produced. *)
Definition inserted (els : list (Element T)) b : PriorityRingBuffer T :=
  {| elements := els;
     capacity := capacity b;
     head := if size b =? capacity b then (tail b + 1) mod capacity b
             else head b;
     tail := (tail b + 1) mod capacity b;
     size := if size b =? capacity b then size b else size b + 1;
     bubbleWindow := bubbleWindow b;
     orderCounter := int64_wrap (orderCounter b + 1);
     overwriteGuard := overwriteGuard b |}.

(** The two invariants of the data model that bound [size] and tie [head]
    to [tail] in a full buffer. *)
Definition ring_inv b : Prop :=
  0 <= size b <= capacity b ∧ (size b = capacity b → head b = tail b).

End Notions.

Section Runs.

Context {T : Type} (make_limit : N) (zeroT : T).
Implicit Types (b : PriorityRingBuffer T) (e : Element T).

(** One call of a method of the buffer. *)
Inductive step b : PriorityRingBuffer T → Prop :=
| step_Insert value priority r b' :
    Insert value priority b = Some (r, b') → step b b'
| step_Dequeue r b' : Dequeue zeroT b = Some (r, b') → step b b'
| step_Peek r b' : Peek zeroT b = Some (r, b') → step b b'
| step_PeekMaxPriority r b' : PeekMaxPriority zeroT b = Some (r, b') → step b b'
| step_Search filters r b' : Search filters b = Some (r, b') → step b b'
| step_Len r b' : Len b = Some (r, b') → step b b'.

(** The states a caller can obtain: [New] followed by any calls. *)
Inductive reachable : PriorityRingBuffer T → Prop :=
| reachable_New config b :
    New make_limit zeroT config = Some (Some b, None) → reachable b
| reachable_step b b' : reachable b → step b b' → reachable b'.

(** A sequence of [Insert] calls; the log keeps, per call, the element the
    call built, its result and the buffer it left. *)
Fixpoint run_inserts (ops : list (T * Z)) b
  : option (list (Element T * option error * PriorityRingBuffer T)
            * PriorityRingBuffer T) :=
  match ops with
  | [] => Some ([], b)
  | (value, priority) :: rest =>
      '(r, b1) ← Insert value priority b;
      '(log, b2) ← run_inserts rest b1;
      Some ((newElement value priority b, r, b1) :: log, b2)
  end.

(** The elements of the calls of a log that returned no error. *)
Definition accepted
    (log : list (Element T * option error * PriorityRingBuffer T))
  : list (Element T) :=
  omap (λ '(e, r, _), match r with None => Some e | Some _ => None end) log.

End Runs.

(** ** Concrete buffers of integers

    [built config ops] is the buffer that [New] followed by the [Insert]
    calls of [ops] (value, priority) leaves, when none of them panics and
    [New] succeeds; [make] is taken to allocate up to [built_make_limit]
    elements. *)

Definition config_of (cap window : Z) (guard : bool) : Config :=
  {| Capacity := cap; BubbleWindow := window;
     OverwriteGuard := guard; ThreadSafe := false |}.

Definition built_make_limit : N := 1024.

Definition built (config : Config) (ops : list (Z * Z))
  : option (PriorityRingBuffer Z) :=
  made ← New built_make_limit 0 config;
  b ← made.1;
  r ← run_inserts ops b;
  Some r.2.

Definition element_of (value priority order : Z) : Element Z :=
  {| Value := value; Priority := priority; InsertionOrder := order |}.

(** Capacity 2, window 1, no guard: just constructed. *)
Definition fresh2 : PriorityRingBuffer Z :=
  {| elements := [zeroElement 0; zeroElement 0];
     capacity := 2; head := 0; tail := 0; size := 0;
     bubbleWindow := 1; orderCounter := 0; overwriteGuard := false |}.

(** Capacity 1, guard on: just constructed. *)
Definition fresh1_guarded : PriorityRingBuffer Z :=
  {| elements := [zeroElement 0];
     capacity := 1; head := 0; tail := 0; size := 0;
     bubbleWindow := 0; orderCounter := 0; overwriteGuard := true |}.

(** Capacity 2, window 1, guard on, filled with priorities 5 and 5. *)
Definition full55 : PriorityRingBuffer Z :=
  {| elements := [element_of 1 5 0; element_of 2 5 1];
     capacity := 2; head := 0; tail := 0; size := 2;
     bubbleWindow := 1; orderCounter := 2; overwriteGuard := true |}.

(** Capacity 3, window 0, after inserting priorities 5, 15 and 10. *)
Definition three_5_15_10 : PriorityRingBuffer Z :=
  {| elements := [element_of 1 5 0; element_of 2 15 1; element_of 3 10 2];
     capacity := 3; head := 0; tail := 0; size := 3;
     bubbleWindow := 0; orderCounter := 3; overwriteGuard := false |}.

(** Capacity 3, window 2 ([capacity - 1]), after one insert of priority 1. *)
Definition one_of_three : PriorityRingBuffer Z :=
  {| elements := [element_of 10 1 0; zeroElement 0; zeroElement 0];
     capacity := 3; head := 0; tail := 1; size := 1;
     bubbleWindow := 2; orderCounter := 1; overwriteGuard := false |}.

(** [one_of_three] after a second insert, of priority 2. *)
Definition two_of_three : PriorityRingBuffer Z :=
  {| elements := [zeroElement 0; element_of 10 1 0; element_of 20 2 1];
     capacity := 3; head := 0; tail := 2; size := 2;
     bubbleWindow := 2; orderCounter := 2; overwriteGuard := false |}.


(** ** Further notions: runs of [Dequeue], insertion orders *)

Section MoreNotions.

Context {T : Type} (zeroT : T).
Implicit Types (b : PriorityRingBuffer T) (e : Element T).

(** [n] calls of [Dequeue] in a row, with what each returned. *)
Fixpoint run_dequeues (n : nat) b
  : option (list (Element T * option error) * PriorityRingBuffer T) :=
  match n with
  | O => Some ([], b)
  | S n' =>
      '(r, b1) ← Dequeue zeroT b;
      '(rs, b2) ← run_dequeues n' b1;
      Some (r :: rs, b2)
  end.

(** Any number of calls of the methods of the buffer, one after another. *)
Inductive calls : PriorityRingBuffer T → PriorityRingBuffer T → Prop :=
| calls_none b : calls b b
| calls_step b b1 b2 : step zeroT b b1 → calls b1 b2 → calls b b2.

(** No slot carries an insertion order above the counter. *)
Definition orders_bounded b : Prop :=
  Forall (λ e, InsertionOrder e <= orderCounter b) (elements b).

(** The slot index [k] slots before [index], going round the ring. *)
Definition slots_before (capacity index k : Z) : Z :=
  (index - k) mod capacity.

End MoreNotions.

(** ** The earlier iteration of the package

    The same file keeps the previous iteration of [New], [Insert],
    [Dequeue], [PeekHead], [Size] and [Capacity] (its [PeekMaxPriority] and
    [Search] have no body).  [New] does not validate the configuration,
    the local reorder is written inside [Insert] with a swap test that
    does not compare priorities for equality, and the errors are made on
    the spot by [errors.New].  [New] returns [None] when [make] does not
    return. *)

Module Earlier.

Section Earlier.

Context {T : Type} (make_limit : N) (zeroT : T).
Implicit Types (b : PriorityRingBuffer T).

Definition New (config : Config) : option (PriorityRingBuffer T) :=
  slots ← make make_limit zeroT (Capacity config);
  Some {| elements := slots;
          capacity := Capacity config;
          head := 0; tail := 0; size := 0;
          bubbleWindow := BubbleWindow config;
          orderCounter := 0;
          overwriteGuard := OverwriteGuard config |}.

(** The loop inside [Insert]; [n] counts the iterations left to the loop
    counter. *)
Fixpoint insert_loop (n : nat) (insertIndex : Z) b
  : option (PriorityRingBuffer T) :=
  match n with
  | O => Some b
  | S n' =>
      if negb (size b >? 0) then Some b
      else
        previousIndex ← go_rem (insertIndex - 1 + capacity b) (capacity b);
        if (size b =? capacity b) && (previousIndex =? head b) then Some b
        else
          previousElement ← slice_get (elements b) previousIndex;
          currentElement ← slice_get (elements b) insertIndex;
          if (Priority currentElement >? Priority previousElement)
             || (InsertionOrder currentElement
                 <? InsertionOrder previousElement)
          then
            right1 ← slice_get (elements b) previousIndex;
            right2 ← slice_get (elements b) insertIndex;
            els1 ← slice_set (elements b) insertIndex right1;
            els2 ← slice_set els1 previousIndex right2;
            insert_loop n' previousIndex (set_elements els2 b)
          else Some b
  end.

Definition Insert (value : T) (priority : Z) (b0 : PriorityRingBuffer T)
  : option (option error * PriorityRingBuffer T) :=
  let element := {| Value := value; Priority := priority;
                    InsertionOrder := orderCounter b0 |} in
  let b := set_orderCounter (int64_wrap (orderCounter b0 + 1)) b0 in
  let overwriting := size b =? capacity b in
  let insertIndex := tail b in
  refused ← (if overwriting && overwriteGuard b
             then victim ← slice_get (elements b) (head b);
                  Some (priority <=? Priority victim)
             else Some false);
  if refused : bool
  then Some (Some (errors_New
               "buffer is full, refused to overwrite higher priority element"),
             b)
  else
    els ← slice_set (elements b) insertIndex element;
    let b := set_elements els b in
    b ← insert_loop (Z.to_nat (bubbleWindow b)) insertIndex b;
    t ← go_rem (tail b + 1) (capacity b);
    let b := set_tail t b in
    Some (None, if overwriting then set_head (tail b) b
                else set_size (size b + 1) b).

Definition Dequeue b
  : option ((Element T * option error) * PriorityRingBuffer T) :=
  if size b =? 0
  then Some ((zeroElement zeroT, Some (errors_New "buffer is empty")), b)
  else
    element ← slice_get (elements b) (head b);
    h ← go_rem (head b + 1) (capacity b);
    Some ((element, None), set_size (size b - 1) (set_head h b)).

Definition PeekHead b
  : option ((Element T * option error) * PriorityRingBuffer T) :=
  if size b =? 0
  then Some ((zeroElement zeroT, Some (errors_New "buffer is empty")), b)
  else
    element ← slice_get (elements b) (head b);
    Some ((element, None), b).

(** A sequence of [Insert] calls of the earlier iteration, with the
    result of each. *)
Fixpoint run_inserts (ops : list (T * Z)) b
  : option (list (option error) * PriorityRingBuffer T) :=
  match ops with
  | [] => Some ([], b)
  | (value, priority) :: rest =>
      '(r, b1) ← Insert value priority b;
      '(rs, b2) ← run_inserts rest b1;
      Some (r :: rs, b2)
  end.

Definition Size b : option (Z * PriorityRingBuffer T) := Some (size b, b).

Definition Capacity b : option (Z * PriorityRingBuffer T) :=
  Some (capacity b, b).

End Earlier.

End Earlier.

(** The error of the earlier iteration that stands for a package error of
    the final one: a fresh error with the same text. *)
Definition earlier_error (e : error) : error := errors_New (Error e).

(** The results of a log of the final [Insert] as the earlier one gives
    them. *)
Definition earlier_results {T : Type}
    (log : list (Element T * option error * PriorityRingBuffer T))
  : list (option error) :=
  map (λ x, option_map earlier_error x.1.2) log.

(** ** More concrete buffers *)

(** Capacity 3, window 1, after inserting priorities 5 and 15. *)
Definition two_window1 : PriorityRingBuffer Z :=
  {| elements := [element_of 2 15 1; element_of 1 5 0; zeroElement 0];
     capacity := 3; head := 0; tail := 2; size := 2;
     bubbleWindow := 1; orderCounter := 2; overwriteGuard := false |}.

(** Capacity 3, window 0, after inserting priorities 5 and 15. *)
Definition two_5_15 : PriorityRingBuffer Z :=
  {| elements := [element_of 1 5 0; element_of 2 15 1; zeroElement 0];
     capacity := 3; head := 0; tail := 2; size := 2;
     bubbleWindow := 0; orderCounter := 2; overwriteGuard := false |}.

(** Capacity 3, window 2, no guard, after inserting priorities -3, -2
    and -1 (a negative priority does not outrank a zero-valued slot). *)
Definition full_window2 : PriorityRingBuffer Z :=
  {| elements := [element_of 3 (-1) 2; element_of 2 (-2) 1;
                  element_of 1 (-3) 0];
     capacity := 3; head := 0; tail := 0; size := 3;
     bubbleWindow := 2; orderCounter := 3; overwriteGuard := false |}.

(** * Properties *)

(** ** Go primitives *)

Lemma int64_wrap_small z : - 2 ^ 63 <= z < 2 ^ 63 → int64_wrap z = z.
Proof.
  intros Hz. unfold int64_wrap.
  rewrite Z.mod_small; lia.
Qed.

Lemma go_rem_nonneg a m : 0 <= a → 0 < m → go_rem a m = Some (a mod m).
Proof.
  intros Ha Hm. unfold go_rem.
  destruct (Z.eqb_spec m 0) as [->|_]; [lia|].
  by rewrite Z.rem_mod_nonneg.
Qed.

Lemma slice_get_Some {A} (s : list A) i x :
  slice_get s i = Some x ↔ 0 <= i ∧ s !! Z.to_nat i = Some x.
Proof.
  unfold slice_get. split.
  - destruct (Z.leb_spec 0 i), (Z.ltb_spec i (Z.of_nat (length s)));
      simpl; intros; by simplify_eq.
  - intros [Hi Hx]. apply lookup_lt_Some in Hx as Hlt.
    destruct (Z.leb_spec 0 i); [|lia].
    destruct (Z.ltb_spec i (Z.of_nat (length s))); [done|lia].
Qed.

Lemma slice_get_is_Some {A} (s : list A) i :
  0 <= i < Z.of_nat (length s) → is_Some (slice_get s i).
Proof.
  intros Hi. destruct (lookup_lt_is_Some_2 s (Z.to_nat i)) as [x Hx]; [lia|].
  exists x. apply slice_get_Some. split; [lia|done].
Qed.

Lemma slice_set_in_range {A} (s : list A) i x :
  0 <= i < Z.of_nat (length s) →
  slice_set s i x = Some (<[Z.to_nat i := x]> s).
Proof.
  intros Hi. unfold slice_set.
  destruct (Z.leb_spec 0 i); [|lia].
  destruct (Z.ltb_spec i (Z.of_nat (length s))); [done|lia].
Qed.

(** Writing two slots with each other's contents permutes the slice. *)
Lemma swap_Permutation {A} (s : list A) i j x y :
  s !! i = Some x → s !! j = Some y →
  Permutation (<[j := x]> (<[i := y]> s)) s.
Proof.
  intros Hi Hj. destruct (decide (i = j)) as [->|Hne].
  - simplify_eq. rewrite list_insert_insert_eq. by rewrite list_insert_id.
  - symmetry. apply Permutation_inj. split.
    + by rewrite !length_insert.
    + exists (λ k, if decide (k = i) then j else if decide (k = j) then i else k).
      split.
      * intros k1 k2. repeat case_decide; naive_solver.
      * intros k. apply lookup_lt_Some in Hi as Hli.
        apply lookup_lt_Some in Hj as Hlj.
        repeat case_decide; subst.
        -- rewrite list_lookup_insert_eq; [done|]. by rewrite length_insert.
        -- rewrite list_lookup_insert_ne by done.
           by rewrite list_lookup_insert_eq.
        -- rewrite !list_lookup_insert_ne by done. done.
Qed.

(** ** The local reorder *)

Section Bubble.

Context {T : Type}.
Implicit Types (b : PriorityRingBuffer T) (e : Element T).

Lemma set_elements_id b : set_elements (elements b) b = b.
Proof. by destruct b. Qed.

(** On a buffer whose slice has [capacity] slots the walk never panics, and
    all it does is permute the slots. *)
Lemma bubble_loop_permutes n insertIndex b :
  Z.of_nat (length (elements b)) = capacity b →
  0 <= insertIndex < capacity b →
  ∃ els, bubble_loop n insertIndex b = Some (set_elements els b)
         ∧ Permutation els (elements b).
Proof.
  revert insertIndex b. induction n as [|n IH]; intros idx b Hlen Hidx.
  { exists (elements b). by rewrite set_elements_id. }
  assert (Hstop : ∃ els, Some b = Some (set_elements els b)
                         ∧ Permutation els (elements b)).
  { exists (elements b). by rewrite set_elements_id. }
  simpl. destruct (size b >? 0); simpl; [|done].
  rewrite go_rem_nonneg by lia. simpl.
  set (prev := (idx - 1 + capacity b) mod capacity b).
  assert (0 <= prev < capacity b) as Hprev by (apply Z.mod_pos_bound; lia).
  destruct ((size b =? capacity b) && (prev =? head b)); [done|].
  destruct (slice_get_is_Some (elements b) idx) as [cur Hcur]; [lia|].
  destruct (slice_get_is_Some (elements b) prev) as [prv Hprv]; [lia|].
  rewrite Hcur, Hprv. simpl.
  destruct (shouldSwap cur prv); [|done].
  rewrite slice_set_in_range by lia. simpl.
  rewrite slice_set_in_range by (rewrite length_insert; lia). simpl.
  destruct (IH prev (set_elements
              (<[Z.to_nat prev := cur]> (<[Z.to_nat idx := prv]> (elements b))) b))
    as (els & Hrun & Hperm).
  { simpl. rewrite !length_insert. lia. }
  { simpl. lia. }
  exists els. split; [done|].
  simpl in Hperm. rewrite Hperm.
  apply slice_get_Some in Hcur as [_ Hcur].
  apply slice_get_Some in Hprv as [_ Hprv].
  by apply swap_Permutation.
Qed.

Lemma bubbleElement_permutes insertIndex b :
  Z.of_nat (length (elements b)) = capacity b →
  0 <= insertIndex < capacity b →
  ∃ els, bubbleElement insertIndex b = Some (set_elements els b)
         ∧ Permutation els (elements b).
Proof. apply bubble_loop_permutes. Qed.

End Bubble.

(** ** What [Insert] and [Dequeue] do to a well-formed buffer *)

Section Operations.

Context {T : Type} (make_limit : N) (zeroT : T).
Implicit Types (b : PriorityRingBuffer T) (e : Element T).

Lemma wf_head_slot b : wf b → is_Some (slice_get (elements b) (head b)).
Proof. intros [? ? ? ? ? ? ?]. apply slice_get_is_Some. lia. Qed.

Lemma Insert_refused value priority b victim :
  wf b → size b = capacity b → overwriteGuard b = true →
  slice_get (elements b) (head b) = Some victim →
  priority <= Priority victim →
  Insert value priority b
  = Some (Some ErrBufferFull,
          set_orderCounter (int64_wrap (orderCounter b + 1)) b).
Proof.
  intros Hwf Hfull Hguard Hvictim Hle. unfold Insert. simpl.
  rewrite Hfull, Z.eqb_refl, Hguard, Hvictim. simpl.
  destruct (Z.leb_spec priority (Priority victim)); [done|lia].
Qed.

Lemma Insert_accepted value priority b :
  wf b →
  (size b = capacity b → overwriteGuard b = true →
   ∀ victim, slice_get (elements b) (head b) = Some victim →
             Priority victim < priority) →
  ∃ els, Insert value priority b = Some (None, inserted els b)
         ∧ Permutation els
             (<[Z.to_nat (tail b) := newElement value priority b]> (elements b)).
Proof.
  intros Hwf Hok. destruct (wf_head_slot b Hwf) as [victim Hvictim].
  destruct Hwf as [Hlen Hcap Hhead Htail Hsize Hring Hwin].
  unfold Insert. simpl.
  assert (Hgo : (if (size b =? capacity b) && overwriteGuard b
                 then victim ← slice_get (elements b) (head b);
                      Some (priority <=? Priority victim)
                 else Some false) = Some false).
  { destruct (Z.eqb_spec (size b) (capacity b)) as [Hfull|]; [|done].
    destruct (overwriteGuard b) eqn:Hguard; [|done]. simpl.
    rewrite Hvictim. simpl. f_equal.
    specialize (Hok Hfull eq_refl _ Hvictim).
    destruct (Z.leb_spec priority (Priority victim)); [lia|done]. }
  rewrite Hgo. simpl.
  rewrite slice_set_in_range by lia. simpl.
  set (b1 := set_elements _ _).
  destruct (bubbleElement_permutes (tail b) b1) as (els & Hrun & Hperm).
  { subst b1. simpl. rewrite length_insert. lia. }
  { subst b1. simpl. lia. }
  change (tail (set_orderCounter (int64_wrap (orderCounter b + 1)) b))
    with (tail b) in *.
  rewrite Hrun. simpl.
  rewrite go_rem_nonneg by lia. simpl.
  exists els. split; [|done].
  unfold inserted. by destruct (size b =? capacity b).
Qed.

Lemma inserted_wf els b :
  wf b → Z.of_nat (length els) = capacity b → wf (inserted els b).
Proof.
  intros [Hlen Hcap Hhead Htail Hsize Hring Hwin] Hels.
  assert (0 <= (tail b + 1) mod capacity b < capacity b)
    by (apply Z.mod_pos_bound; lia).
  constructor; simpl; try done.
  - destruct (Z.eqb_spec (size b) (capacity b)); lia.
  - destruct (Z.eqb_spec (size b) (capacity b)); lia.
  - destruct (Z.eqb_spec (size b) (capacity b)) as [Hfull|Hnot].
    + rewrite Hfull.
      replace ((tail b + 1) mod capacity b + capacity b)
        with ((tail b + 1) mod capacity b + 1 * capacity b) by lia.
      by rewrite Z.mod_add, Z.mod_mod by lia.
    + rewrite Hring, Z.add_mod_idemp_l by lia. f_equal. lia.
Qed.

Lemma Dequeue_empty b :
  size b = 0 → Dequeue zeroT b = Some ((zeroElement zeroT, Some ErrBufferEmpty), b).
Proof. intros Hz. unfold Dequeue. by rewrite Hz. Qed.

Lemma Dequeue_nonempty b :
  wf b → size b ≠ 0 →
  ∃ e, slice_get (elements b) (head b) = Some e
       ∧ Dequeue zeroT b
         = Some ((e, None),
                 set_size (size b - 1)
                   (set_head ((head b + 1) mod capacity b) b)).
Proof.
  intros Hwf Hnz. destruct (wf_head_slot b Hwf) as [e He].
  destruct Hwf as [Hlen Hcap Hhead Htail Hsize Hring Hwin].
  exists e. split; [done|]. unfold Dequeue.
  destruct (Z.eqb_spec (size b) 0); [done|].
  rewrite He. simpl. by rewrite go_rem_nonneg by lia.
Qed.

Lemma dequeued_wf b :
  wf b → size b ≠ 0 →
  wf (set_size (size b - 1) (set_head ((head b + 1) mod capacity b) b)).
Proof.
  intros [Hlen Hcap Hhead Htail Hsize Hring Hwin] Hnz.
  constructor; simpl; try done.
  - apply Z.mod_pos_bound; lia.
  - lia.
  - rewrite Hring, Z.add_mod_idemp_l by lia. f_equal. lia.
Qed.

(** What [New] returns when it returns a buffer. *)
Lemma New_Some config b :
  New make_limit zeroT config = Some (Some b, None) →
  0 < Capacity config
  ∧ 0 <= BubbleWindow config <= Capacity config - 1
  ∧ Capacity config <= Z.of_N make_limit
  ∧ b = {| elements := replicate (Z.to_nat (Capacity config))
                         (zeroElement zeroT);
           capacity := Capacity config;
           head := 0; tail := 0; size := 0;
           bubbleWindow := BubbleWindow config;
           orderCounter := 0;
           overwriteGuard := OverwriteGuard config |}.
Proof.
  unfold New, make. intros Hnew.
  destruct (Z.leb_spec (Capacity config) 0); [done|].
  destruct (Z.ltb_spec (BubbleWindow config) 0); [done|].
  destruct (Z.gtb_spec (BubbleWindow config) (Capacity config - 1)); [done|].
  destruct (Z.ltb_spec (Capacity config) 0); [lia|].
  destruct (Z.gtb_spec (Capacity config) (Z.of_N make_limit)); [done|].
  simpl in Hnew. simplify_eq. repeat split; lia.
Qed.

Lemma New_wf config b :
  New make_limit zeroT config = Some (Some b, None) → wf b.
Proof.
  intros Hnew. apply New_Some in Hnew as (Hcap & Hwin & _ & ->).
  constructor; simpl; try lia.
  - rewrite length_replicate. lia.
  - by rewrite Z.mod_0_l by lia.
Qed.

End Operations.

(** ** Scans over the live slots *)

Section Scans.

Context {T : Type} (zeroT : T).
Implicit Types (b : PriorityRingBuffer T) (e : Element T).

Lemma live_slot_eq b i :
  0 < capacity b → 0 <= head b + i →
  live_slot b i = slice_get (elements b) ((head b + i) mod capacity b).
Proof. intros. unfold live_slot. by rewrite go_rem_nonneg. Qed.

Lemma live_slot_is_Some b i :
  wf b → 0 <= i → is_Some (live_slot b i).
Proof.
  intros [Hlen Hcap Hhead Htail Hsize Hring Hwin] Hi.
  rewrite live_slot_eq by lia. apply slice_get_is_Some.
  rewrite Hlen. apply Z.mod_pos_bound. lia.
Qed.

Lemma shouldSwap_false (e' e : Element T) :
  shouldSwap e' e = false ↔
  Priority e' <= Priority e
  ∧ (Priority e' = Priority e → InsertionOrder e <= InsertionOrder e').
Proof.
  unfold shouldSwap.
  destruct (Z.gtb_spec (Priority e') (Priority e)),
           (Z.eqb_spec (Priority e') (Priority e)),
           (Z.ltb_spec (InsertionOrder e') (InsertionOrder e)); simpl;
    split; intros; try done; lia.
Qed.

Lemma shouldSwap_true (e' e : Element T) :
  shouldSwap e' e = true ↔
  Priority e < Priority e'
  ∨ (Priority e' = Priority e ∧ InsertionOrder e' < InsertionOrder e).
Proof.
  unfold shouldSwap.
  destruct (Z.gtb_spec (Priority e') (Priority e)),
           (Z.eqb_spec (Priority e') (Priority e)),
           (Z.ltb_spec (InsertionOrder e') (InsertionOrder e)); simpl;
    split; intros; try done; lia.
Qed.

Lemma shouldSwap_irrefl e : shouldSwap e e = false.
Proof. apply shouldSwap_false. lia. Qed.

(** An element that outranks the running maximum is outranked by no
    element that the running maximum was not outranked by. *)
Lemma shouldSwap_new_max e c m :
  shouldSwap c m = true → shouldSwap e m = false → shouldSwap e c = false.
Proof.
  intros Hcm Hem. apply shouldSwap_false in Hem. apply shouldSwap_false.
  unfold shouldSwap in Hcm.
  destruct (Z.gtb_spec (Priority c) (Priority m)),
           (Z.eqb_spec (Priority c) (Priority m)),
           (Z.ltb_spec (InsertionOrder c) (InsertionOrder m));
    simpl in Hcm; try done; lia.
Qed.

Lemma peekMax_loop_greatest n i maxIndex b em :
  wf b → 0 < i →
  (∃ k, 0 <= k < i ∧ live_slot b k = Some em
        ∧ maxIndex = (head b + k) mod capacity b) →
  (∀ j e, 0 <= j < i → live_slot b j = Some e → shouldSwap e em = false) →
  ∃ m' em' k,
    peekMax_loop n i maxIndex b = Some m'
    ∧ slice_get (elements b) m' = Some em'
    ∧ 0 <= k < i + Z.of_nat n ∧ live_slot b k = Some em'
    ∧ ∀ j e, 0 <= j < i + Z.of_nat n → live_slot b j = Some e →
             shouldSwap e em' = false.
Proof.
  intros Hwf. revert i maxIndex em.
  induction n as [|n IH]; intros i m em Hi (k & Hk & Hkm & ->) Hmax.
  { exists ((head b + k) mod capacity b), em, k. simpl.
    rewrite <- live_slot_eq by (destruct Hwf; lia).
    repeat split; try done; try lia.
    intros j e Hj. apply Hmax. lia. }
  destruct (live_slot_is_Some b i Hwf) as [c Hc]; [lia|].
  pose proof Hwf as [Hlen Hcap Hhead Htail Hsize Hring Hwin].
  simpl. rewrite go_rem_nonneg by lia. simpl.
  rewrite <- !live_slot_eq by lia. rewrite Hc, Hkm. simpl.
  change (_ || _) with (shouldSwap c em).
  destruct (shouldSwap c em) eqn:Hswap.
  - destruct (IH (i + 1) ((head b + i) mod capacity b) c) as
      (m' & em' & k' & Hrun & Hget & Hk' & Hlive & Hgreatest).
    + lia.
    + exists i. repeat split; try done; lia.
    + intros j e Hj He. destruct (decide (j = i)) as [->|].
      * rewrite Hc in He. simplify_eq. apply shouldSwap_irrefl.
      * eapply shouldSwap_new_max; [done|]. apply (Hmax j); [lia|done].
    + exists m', em', k'. repeat split; try done; try lia.
      intros j e Hj. apply Hgreatest. lia.
  - destruct (IH (i + 1) ((head b + k) mod capacity b) em) as
      (m' & em' & k' & Hrun & Hget & Hk' & Hlive & Hgreatest).
    + lia.
    + exists k. repeat split; try done; lia.
    + intros j e Hj He. destruct (decide (j = i)) as [->|].
      * rewrite Hc in He. by simplify_eq.
      * apply (Hmax j); [lia|done].
    + exists m', em', k'. repeat split; try done; try lia.
      intros j e Hj. apply Hgreatest. lia.
Qed.

(** The filter loop of [Search] accepts an element exactly when every
    filter does. *)
Lemma matchAll_forallb (filters : list (SearchFilter T)) e :
  matchAll filters e = forallb (λ filter, filter e) filters.
Proof.
  induction filters as [|f fs IH]; [done|].
  simpl. rewrite IH. by destruct (f e).
Qed.

End Scans.

Section Search.

Context {T : Type}.
Implicit Types (b : PriorityRingBuffer T) (e : Element T).

Lemma search_loop_filter (filters : list (SearchFilter T)) n i result b :
  wf b → 0 <= i →
  search_loop filters n i result b
  = Some (result ++ List.filter (matches_at filters b) (seqZ i (Z.of_nat n))).
Proof.
  intros Hwf. revert i result. induction n as [|n IH]; intros i result Hi.
  { simpl. by rewrite app_nil_r. }
  destruct (live_slot_is_Some b i Hwf Hi) as [e He].
  pose proof Hwf as [Hlen Hcap Hhead Htail Hsize Hring Hwin].
  rewrite seqZ_cons by lia.
  replace (Z.pred (Z.of_nat (S n))) with (Z.of_nat n) by lia.
  simpl. rewrite go_rem_nonneg by lia. simpl.
  rewrite <- live_slot_eq by lia. rewrite He. simpl.
  rewrite IH by lia. unfold matches_at at 2. rewrite He.
  unfold satisfies_all. rewrite <- matchAll_forallb.
  replace (Z.succ i) with (i + 1) by lia.
  destruct (matchAll filters e); [|done].
  by rewrite <- app_assoc.
Qed.

Lemma Search_refines (filters : list (SearchFilter T)) b :
  wf b → Search filters b = Some (Search_spec filters b, b).
Proof.
  intros Hwf. unfold Search, Search_spec.
  rewrite search_loop_filter by done. simpl.
  by rewrite Z2Nat.id by (destruct Hwf; lia).
Qed.

End Search.

(** ** The representation invariant along runs *)

Section Invariant.

Context {T : Type} (make_limit : N) (zeroT : T).
Implicit Types (b : PriorityRingBuffer T) (e : Element T).

Lemma ring_inv_of_wf b : wf b → ring_inv b.
Proof.
  intros [Hlen Hcap Hhead Htail Hsize Hring Hwin]. split; [done|].
  intros Hfull. rewrite Hring, Hfull.
  replace (head b + capacity b) with (head b + 1 * capacity b) by lia.
  by rewrite Z.mod_add, Z.mod_small by lia.
Qed.

Lemma set_orderCounter_wf c b : wf b → wf (set_orderCounter c b).
Proof. intros []. by constructor. Qed.

(** [Insert] returns on every well-formed buffer; what it leaves is well
    formed, has the counter advanced, and either is otherwise unchanged
    (refusal) or holds the new element in one of its slots. *)
Lemma Insert_wf value priority b :
  wf b →
  ∃ r b', Insert value priority b = Some (r, b')
    ∧ wf b'
    ∧ orderCounter b' = int64_wrap (orderCounter b + 1)
    ∧ match r with
      | Some err =>
          err = ErrBufferFull
          ∧ b' = set_orderCounter (int64_wrap (orderCounter b + 1)) b
      | None => newElement value priority b ∈ elements b'
      end.
Proof.
  intros Hwf. destruct (wf_head_slot b Hwf) as [victim Hvictim].
  destruct (decide (size b = capacity b ∧ overwriteGuard b = true
                    ∧ priority <= Priority victim)) as [(Hf & Hg & Hle)|Hacc].
  - eexists _, _. split; [by eapply Insert_refused|].
    split; [by apply set_orderCounter_wf|]. done.
  - destruct (Insert_accepted value priority b Hwf) as (els & Hins & Hperm).
    { intros Hf Hg v Hv. rewrite Hvictim in Hv. simplify_eq.
      apply Z.nle_gt. intros Hle. by apply Hacc. }
    pose proof Hwf as [Hlen Hcap Hhead Htail Hsize Hring Hwin].
    eexists _, _. split; [done|]. split; [|split; [done|]].
    + apply inserted_wf; [done|].
      rewrite (Permutation_length Hperm), length_insert. done.
    + simpl. rewrite Hperm. apply list_elem_of_lookup.
      exists (Z.to_nat (tail b)). apply list_lookup_insert_eq. lia.
Qed.

Lemma Dequeue_wf b :
  wf b → ∃ r b', Dequeue zeroT b = Some (r, b') ∧ wf b'.
Proof.
  intros Hwf. destruct (decide (size b = 0)) as [Hz|Hnz].
  - eexists _, _. split; [by apply Dequeue_empty|done].
  - destruct (Dequeue_nonempty zeroT b Hwf Hnz) as (e & _ & Hdq).
    eexists _, _. split; [done|]. by apply dequeued_wf.
Qed.

Lemma Peek_unchanged b :
  wf b → ∃ r, Peek zeroT b = Some (r, b).
Proof.
  intros Hwf. destruct (wf_head_slot b Hwf) as [e He].
  unfold Peek. destruct (size b =? 0); [by eexists|].
  rewrite He. by eexists.
Qed.

Lemma PeekMaxPriority_nonempty b :
  wf b → 0 < size b →
  ∃ e k, PeekMaxPriority zeroT b = Some ((e, None), b)
    ∧ 0 <= k < size b ∧ live_slot b k = Some e
    ∧ ∀ j e', 0 <= j < size b → live_slot b j = Some e' →
              shouldSwap e' e = false.
Proof.
  intros Hwf Hsize.
  destruct (live_slot_is_Some b 0 Hwf) as [e0 He0]; [done|].
  pose proof Hwf as [Hlen Hcap Hhead Htail Hsz Hring Hwin].
  destruct (peekMax_loop_greatest (Z.to_nat (size b - 1)) 1 (head b) b e0)
    as (m & e & k & Hrun & Hget & Hk & Hlive & Hgreatest); [done|lia| | |].
  { exists 0. repeat split; try done; try lia.
    rewrite Z.add_0_r, Z.mod_small; lia. }
  { intros j e' Hj He'. assert (j = 0) as -> by lia.
    rewrite He0 in He'. simplify_eq. apply shouldSwap_irrefl. }
  exists e, k. unfold PeekMaxPriority.
  destruct (Z.eqb_spec (size b) 0); [lia|].
  rewrite Hrun. simpl. rewrite Hget. simpl.
  repeat split; try done; try lia.
  intros j e' Hj. apply Hgreatest. lia.
Qed.

Lemma PeekMaxPriority_unchanged b :
  wf b → ∃ r, PeekMaxPriority zeroT b = Some (r, b).
Proof.
  intros Hwf. destruct (decide (size b = 0)) as [Hz|Hnz].
  - unfold PeekMaxPriority. rewrite Hz. by eexists.
  - destruct (PeekMaxPriority_nonempty b Hwf) as (e & k & Hp & _).
    { destruct Hwf. lia. }
    by eexists.
Qed.

Lemma step_wf b b' : wf b → step zeroT b b' → wf b'.
Proof.
  intros Hwf Hstep. destruct Hstep as [v p r b' H|r b' H|r b' H|r b' H|fs r b' H|r b' H].
  - destruct (Insert_wf v p b Hwf) as (r0 & b0 & Hins & Hwf' & _).
    rewrite Hins in H. by simplify_eq.
  - destruct (Dequeue_wf b Hwf) as (r0 & b0 & Hdq & Hwf').
    rewrite Hdq in H. by simplify_eq.
  - destruct (Peek_unchanged b Hwf) as (r0 & Hp).
    rewrite Hp in H. by simplify_eq.
  - destruct (PeekMaxPriority_unchanged b Hwf) as (r0 & Hp).
    rewrite Hp in H. by simplify_eq.
  - rewrite Search_refines in H by done. by simplify_eq.
  - unfold Len in H. by simplify_eq.
Qed.

Lemma reachable_wf b : reachable make_limit zeroT b → wf b.
Proof.
  induction 1 as [config b Hnew|b b' _ IH Hstep].
  - by eapply New_wf.
  - by eapply step_wf.
Qed.

End Invariant.

(** ** The live slots of a full buffer *)

Section Live.

Context {T : Type}.
Implicit Types (b : PriorityRingBuffer T) (e : Element T).

Lemma omap_seqZ_lookup {A} (f : Z → option A) (l : list A) :
  (∀ k, (k < length l)%nat → f (Z.of_nat k) = l !! k) →
  omap f (seqZ 0 (Z.of_nat (length l))) = l.
Proof.
  induction l as [|x l IH] using rev_ind; intros Hf; [done|].
  rewrite length_app. simpl.
  replace (length l + 1)%nat with (S (length l)) by lia.
  rewrite seqZ_S, omap_app, IH, Z.add_0_l.
  - assert (f (Z.of_nat (length l)) = Some x) as Hx.
    { rewrite Hf by (rewrite length_app; simpl; lia).
      by rewrite lookup_app_r, Nat.sub_diag by lia. }
    simpl. by rewrite Hx.
  - intros k Hk. rewrite Hf by (rewrite length_app; simpl; lia).
    by rewrite lookup_app_l by lia.
Qed.

Lemma rotate_Permutation {A} n (l : list A) : rotate n l ≡ₚ l.
Proof.
  unfold rotate. rewrite Permutation_app_comm. by rewrite take_drop.
Qed.

(** The live slots of a full buffer are its slice read from [head] on. *)
Lemma live_full b :
  wf b → size b = capacity b →
  live b = rotate (Z.to_nat (head b)) (elements b).
Proof.
  intros [Hlen Hcap Hhead Htail Hsize Hring Hwin] Hfull.
  unfold live. rewrite Hfull, <- Hlen.
  rewrite <- (length_rotate (elements b) (Z.to_nat (head b))) at 1.
  apply omap_seqZ_lookup. intros k Hk. rewrite length_rotate in Hk.
  rewrite live_slot_eq by lia.
  rewrite lookup_rotate_r by done. unfold rotate_nat_add.
  rewrite Z2Nat.id, Hlen by lia.
  assert (0 <= (head b + Z.of_nat k) mod capacity b < capacity b)
    by (apply Z.mod_pos_bound; lia).
  destruct (elements b !! Z.to_nat ((head b + Z.of_nat k) mod capacity b))
    as [x|] eqn:Hx.
  - apply slice_get_Some. split; [lia|done].
  - apply lookup_ge_None in Hx. lia.
Qed.

Lemma live_full_Permutation b :
  wf b → size b = capacity b → live b ≡ₚ elements b.
Proof. intros. rewrite live_full by done. apply rotate_Permutation. Qed.

(** The first live slot is the slot at [head]. *)
Lemma live_head b victim :
  wf b → 0 < size b → slice_get (elements b) (head b) = Some victim →
  live b = victim :: omap (live_slot b) (seqZ 1 (size b - 1)).
Proof.
  intros [Hlen Hcap Hhead Htail Hsize Hring Hwin] Hpos Hvictim.
  unfold live. rewrite seqZ_cons by lia. simpl.
  rewrite live_slot_eq, Z.add_0_r, Z.mod_small by lia.
  rewrite Hvictim. done.
Qed.

Lemma insert_Permutation_delete {A} (l : list A) i x :
  (i < length l)%nat → <[i := x]> l ≡ₚ x :: delete i l.
Proof.
  intros Hi. rewrite insert_take_drop, delete_take_drop by done.
  by rewrite <- Permutation_middle.
Qed.

End Live.

(** * The documented properties *)

Section Claims.

Context {T : Type} (make_limit : N) (zeroT : T).
Implicit Types (b : PriorityRingBuffer T) (e : Element T).


(** C10.  On an empty buffer, [Insert] followed at once by [Dequeue]
    succeeds and hands back the inserted element: its value, its priority
    and the insertion order it was given by the [Insert]. *)
Theorem Insert_Dequeue_roundtrip (value : T) (priority : Z) b :
  wf b → size b = 0 →
  ∃ b1 b2,
    Insert value priority b = Some (None, b1)
    ∧ Dequeue zeroT b1
      = Some (({| Value := value; Priority := priority;
                  InsertionOrder := orderCounter b |}, None), b2)
    ∧ size b2 = 0.
Proof.
  intros Hwf Hempty.
  pose proof Hwf as [Hlen Hcap Hhead Htail Hsize Hring Hwin].
  assert (tail b = head b) as Hth.
  { rewrite Hring, Hempty, Z.add_0_r. apply Z.mod_small. lia. }
  unfold Insert. simpl.
  destruct (Z.eqb_spec (size b) (capacity b)) as [|_]; [lia|]. simpl.
  rewrite slice_set_in_range by lia. simpl.
  unfold bubbleElement. simpl.
  assert (∀ n els idx,
    bubble_loop n idx
      (set_elements els
         (set_orderCounter (int64_wrap (orderCounter b + 1)) b))
    = Some (set_elements els
              (set_orderCounter (int64_wrap (orderCounter b + 1)) b))) as ->.
  { intros [|n] els idx; [done|]. simpl. by rewrite Hempty. }
  simpl. rewrite go_rem_nonneg by lia. simpl.
  eexists _, _. split; [done|].
  unfold Dequeue. simpl. rewrite Hempty. simpl.
  assert (slice_get
            (<[Z.to_nat (tail b) :=
                 {| Value := value; Priority := priority;
                    InsertionOrder := orderCounter b |}]> (elements b))
            (head b)
          = Some {| Value := value; Priority := priority;
                    InsertionOrder := orderCounter b |}) as ->.
  { apply slice_get_Some. split; [lia|]. rewrite Hth.
    apply list_lookup_insert_eq. lia. }
  simpl. rewrite go_rem_nonneg by lia. simpl. done.
Qed.

(** C7.  On a non-empty buffer [PeekMaxPriority] returns one of the [size]
    live slots from [head] that no live slot outranks: none has a greater
    priority, and none of equal priority has a smaller insertion order; it
    outranks every live slot that differs from it in priority or in
    insertion order.  The buffer is left as it was.  "Outranks" is
    [shouldSwap], the test of the local reorder: it holds exactly for a
    greater priority, or an equal priority and a smaller insertion order,
    and it is the test on which the scan replaces its running maximum. *)
Theorem PeekMaxPriority_greatest b :
  wf b → 0 < size b →
  ∃ e k,
    PeekMaxPriority zeroT b = Some ((e, None), b)
    ∧ 0 <= k < size b ∧ live_slot b k = Some e
    ∧ (∀ j e', 0 <= j < size b → live_slot b j = Some e' →
         shouldSwap e' e = false
         ∧ Priority e' <= Priority e
         ∧ (Priority e' = Priority e → InsertionOrder e <= InsertionOrder e')
         ∧ (shouldSwap e e' = true
            ∨ (Priority e' = Priority e
               ∧ InsertionOrder e' = InsertionOrder e)))
    ∧ (∀ current previous : Element T,
         shouldSwap current previous = true ↔
         Priority previous < Priority current
         ∨ (Priority current = Priority previous
            ∧ InsertionOrder current < InsertionOrder previous))
    ∧ (∀ n i maxIndex,
         peekMax_loop (S n) i maxIndex b
         = (index ← go_rem (head b + i) (capacity b);
            candidate ← slice_get (elements b) index;
            currMax ← slice_get (elements b) maxIndex;
            peekMax_loop n (i + 1)
              (if shouldSwap candidate currMax then index else maxIndex) b))
    ∧ (∀ n insertIndex previousIndex current previous,
         0 < size b →
         go_rem (insertIndex - 1 + capacity b) (capacity b)
         = Some previousIndex →
         (size b =? capacity b) && (previousIndex =? head b) = false →
         slice_get (elements b) insertIndex = Some current →
         slice_get (elements b) previousIndex = Some previous →
         bubble_loop (S n) insertIndex b
         = if shouldSwap current previous
           then els1 ← slice_set (elements b) insertIndex previous;
                els2 ← slice_set els1 previousIndex current;
                bubble_loop n previousIndex (set_elements els2 b)
           else Some b).
Proof.
  intros Hwf Hsize.
  destruct (PeekMaxPriority_nonempty zeroT b Hwf Hsize)
    as (e & k & Hpeek & Hk & Hlive & Hgreatest).
  exists e, k. split; [done|]. split; [done|]. split; [done|].
  split; [|split; [|split]].
  - intros j e' Hj He'. pose proof (Hgreatest j e' Hj He') as Hswap.
    split; [done|]. apply shouldSwap_false in Hswap as [Hle Htie].
    split; [done|]. split; [done|].
    destruct (shouldSwap e e') eqn:Hback; [by left|right].
    apply shouldSwap_false in Hback. lia.
  - intros current previous. apply shouldSwap_true.
  - done.
  - intros n idx prev current previous Hpos Hprev Hstop Hcur Hprv.
    simpl. destruct (Z.gtb_spec (size b) 0); [|lia]. simpl.
    rewrite Hprev. simpl. rewrite Hstop, Hcur. simpl. by rewrite Hprv.
Qed.

(** C8.  [Search] returns the logical offsets from [head] of the live
    elements that satisfy every filter, in increasing order and nothing
    else; with no filter every live offset is returned; the buffer is left
    as it was. *)
Theorem Search_offsets (filters : list (SearchFilter T)) b :
  wf b →
  Search filters b = Some (Search_spec filters b, b)
  ∧ (∀ i, i ∈ Search_spec filters b ↔
          0 <= i < size b
          ∧ ∃ e, live_slot b i = Some e
                 ∧ ∀ filter, filter ∈ filters → filter e = true)
  ∧ StronglySorted Z.lt (Search_spec filters b)
  ∧ Search [] b = Some (seqZ 0 (size b), b).
Proof.
  intros Hwf. split; [by apply Search_refines|].
  assert (∀ m n, StronglySorted Z.lt (seqZ m n)) as Hsorted.
  { intros m n.
    destruct (Z.le_gt_cases n 0); [rewrite seqZ_nil by done; constructor|].
    rewrite <- (Z2Nat.id n) by lia. generalize (Z.to_nat n) as k.
    clear. intros k. revert m. induction k as [|k IH]; intros m.
    - rewrite seqZ_nil by lia. constructor.
    - rewrite seqZ_cons by lia. constructor.
      + replace (Z.pred (Z.of_nat (S k))) with (Z.of_nat k) by lia. apply IH.
      + apply Forall_seqZ. lia. }
  split; [|split].
  - intros i. unfold Search_spec.
    rewrite list_elem_of_In, filter_In, <- list_elem_of_In, elem_of_seqZ.
    unfold matches_at, satisfies_all. split.
    + intros [Hi Hm]. split; [lia|].
      destruct (live_slot b i) as [e|]; [|done].
      exists e. split; [done|]. intros f Hf.
      rewrite forallb_forall in Hm. apply Hm. by apply list_elem_of_In.
    + intros [Hi (e & -> & Hall)]. split; [lia|].
      apply forallb_forall. intros f Hf. apply Hall. by apply list_elem_of_In.
  - unfold Search_spec. generalize (Hsorted 0 (size b)).
    generalize (seqZ 0 (size b)) as l.
    induction l as [|x l IH]; intros Hl; [constructor|].
    apply StronglySorted_inv in Hl as [Hl Hx]. simpl.
    destruct (matches_at filters b x); [|by apply IH].
    constructor; [by apply IH|].
    apply Forall_forall. intros y Hy.
    apply list_elem_of_In, filter_In in Hy as [Hy _].
    rewrite Forall_forall in Hx. by apply Hx, list_elem_of_In.
  - rewrite Search_refines by done. do 2 f_equal.
    unfold Search_spec. apply forallb_filter_id.
    apply forallb_forall. intros i Hi.
    apply list_elem_of_In, elem_of_seqZ in Hi.
    unfold matches_at.
    destruct (live_slot_is_Some b i Hwf) as [e ->]; [lia|done].
Qed.

End Claims.

Section MoreClaims.

Context {T : Type} (make_limit : N) (zeroT : T).
Implicit Types (b : PriorityRingBuffer T) (e : Element T).

(** C3.  On a full buffer with the overwrite guard on, an [Insert] whose
    priority does not exceed that of the element at [head] returns
    [ErrBufferFull] and changes nothing but the insertion counter; an
    [Insert] of a strictly greater priority succeeds, the buffer stays
    full, [head] moves one slot on, and the stored elements are the old
    ones with the old head element replaced by the new element. *)
Theorem Insert_full_guarded (value : T) (priority : Z) b victim :
  wf b → size b = capacity b → overwriteGuard b = true →
  slice_get (elements b) (head b) = Some victim →
  (priority <= Priority victim →
   Insert value priority b
   = Some (Some ErrBufferFull,
           set_orderCounter (int64_wrap (orderCounter b + 1)) b))
  ∧ (Priority victim < priority →
     ∃ b' rest,
       Insert value priority b = Some (None, b')
       ∧ capacity b' = capacity b ∧ size b' = capacity b
       ∧ head b' = (head b + 1) mod capacity b ∧ tail b' = head b'
       ∧ elements b'
         ≡ₚ <[Z.to_nat (head b) := newElement value priority b]> (elements b)
       ∧ live b = victim :: rest
       ∧ live b' ≡ₚ rest ++ [newElement value priority b]).
Proof.
  intros Hwf Hfull Hguard Hvictim.
  split; [by apply Insert_refused|]. intros Hlt.
  destruct (Insert_accepted value priority b Hwf) as (els & Hins & Hperm).
  { intros _ _ v Hv. rewrite Hvictim in Hv. by simplify_eq. }
  pose proof (ring_inv_of_wf b Hwf) as [_ Hht]. specialize (Hht Hfull).
  pose proof Hwf as [Hlen Hcap Hhead Htail Hsize Hring Hwin].
  rewrite <- Hht in Hperm.
  assert (Z.of_nat (length els) = capacity b) as Hels.
  { by rewrite (Permutation_length Hperm), length_insert. }
  pose proof (inserted_wf els b Hwf Hels) as Hwf'.
  set (rest := omap (live_slot b) (seqZ 1 (size b - 1))).
  assert (live b = victim :: rest) as Hlive
    by (apply live_head; [done|lia|done]).
  assert (size (inserted els b) = capacity (inserted els b)) as Hfull'.
  { unfold inserted. simpl. by rewrite Hfull, Z.eqb_refl. }
  exists (inserted els b), rest.
  split; [done|]. split; [done|]. split; [by rewrite Hfull'|].
  split; [simpl; by rewrite Hfull, Z.eqb_refl, Hht|].
  split; [simpl; by rewrite Hfull, Z.eqb_refl|].
  split; [done|]. split; [done|].
  rewrite live_full_Permutation by done.
  change (elements (inserted els b)) with els. rewrite Hperm.
  rewrite insert_Permutation_delete by lia.
  rewrite <- Permutation_cons_append. constructor.
  apply (Permutation_cons_inv (a := victim)).
  rewrite <- Hlive, live_full_Permutation by done.
  symmetry. apply delete_Permutation.
  by apply slice_get_Some in Hvictim as [_ ?].
Qed.

(** C4.  In every state reachable from a freshly constructed buffer,
    [0 <= size <= capacity] holds and a full buffer has [head = tail];
    every operation returns there and leaves a state in which both hold
    again. *)
Theorem reachable_ring_inv b :
  reachable make_limit zeroT b →
  ring_inv b
  ∧ (∀ b', step zeroT b b' → ring_inv b')
  ∧ (∀ value priority, is_Some (Insert value priority b))
  ∧ is_Some (Dequeue zeroT b)
  ∧ is_Some (Peek zeroT b)
  ∧ is_Some (PeekMaxPriority zeroT b)
  ∧ (∀ filters, is_Some (Search filters b))
  ∧ is_Some (Len b).
Proof.
  intros Hreach. pose proof (reachable_wf make_limit zeroT b Hreach) as Hwf.
  split; [by apply ring_inv_of_wf|].
  split; [intros b' Hstep; by eapply ring_inv_of_wf, step_wf|].
  split.
  { intros v p. destruct (Insert_wf v p b Hwf) as (r & b' & -> & _). done. }
  split.
  { destruct (Dequeue_wf zeroT b Hwf) as (r & b' & -> & _). done. }
  split.
  { destruct (Peek_unchanged zeroT b Hwf) as (r & ->). done. }
  split.
  { destruct (PeekMaxPriority_unchanged zeroT b Hwf) as (r & ->). done. }
  split; [|done].
  intros fs. by rewrite Search_refines.
Qed.

(** C5.  On a buffer with [size = 0], [Dequeue], [Peek] and
    [PeekMaxPriority] all fail and leave the buffer as it was.  [Dequeue]
    and [Peek] return [ErrBufferEmpty]; [PeekMaxPriority] returns an error
    made on the spot by [errors.New], with the same text, which is not the
    value [ErrBufferEmpty]. *)
Theorem empty_buffer_errors b :
  size b = 0 →
  Dequeue zeroT b = Some ((zeroElement zeroT, Some ErrBufferEmpty), b)
  ∧ Peek zeroT b = Some ((zeroElement zeroT, Some ErrBufferEmpty), b)
  ∧ PeekMaxPriority zeroT b
    = Some ((zeroElement zeroT, Some (errors_New "buffer is empty")), b)
  ∧ errors_New "buffer is empty" ≠ ErrBufferEmpty
  ∧ Error (errors_New "buffer is empty") = Error ErrBufferEmpty.
Proof.
  intros Hempty. unfold Dequeue, Peek, PeekMaxPriority. rewrite Hempty.
  repeat split; done.
Qed.

Lemma run_inserts_reachable ops b log b' :
  run_inserts ops b = Some (log, b') →
  reachable make_limit zeroT b → reachable make_limit zeroT b'.
Proof.
  revert b log b'. induction ops as [|[v p] ops IH]; intros b log b' Hrun Hb.
  { simpl in Hrun. by simplify_eq. }
  simpl in Hrun.
  destruct (Insert v p b) as [[r b1]|] eqn:Hins; [|done]. simpl in Hrun.
  destruct (run_inserts ops b1) as [[log' b2]|] eqn:Hrest; [|done].
  simpl in Hrun. simplify_eq.
  eapply IH; [done|]. eapply reachable_step; [done|]. by econstructor.
Qed.

(** C6.  Every [Insert] gives its element the current insertion counter
    and advances the counter by one, whether the call is then accepted or
    refused by the overwrite guard.  Along any sequence of [Insert] calls
    that stays below the end of the [int64] range, the counter ends
    [length ops] above where it started, the calls were given consecutive
    counter values, an accepted element is stored with the value it was
    given, the accepted elements carry strictly increasing insertion
    orders, and the value given to a refused call is carried by no
    accepted element. *)
Theorem Insert_counter (ops : list (T * Z)) b :
  wf b → 0 <= orderCounter b →
  orderCounter b + Z.of_nat (length ops) < 2 ^ 63 →
  ∃ log b',
    run_inserts ops b = Some (log, b')
    ∧ orderCounter b' = orderCounter b + Z.of_nat (length ops)
    ∧ (λ x, InsertionOrder x.1.1) <$> log
      = seqZ (orderCounter b) (Z.of_nat (length ops))
    ∧ Forall (λ x, orderCounter x.2 = InsertionOrder x.1.1 + 1
                   ∧ match x.1.2 with
                     | None => x.1.1 ∈ elements x.2
                     | Some err => err = ErrBufferFull
                     end) log
    ∧ StronglySorted Z.lt (InsertionOrder <$> accepted log)
    ∧ Forall (λ x, x.1.2 ≠ None →
                   InsertionOrder x.1.1 ∉ InsertionOrder <$> accepted log) log.
Proof.
  intros Hwf Hlo Hhi.
  cut (∃ log b',
    run_inserts ops b = Some (log, b')
    ∧ orderCounter b' = orderCounter b + Z.of_nat (length ops)
    ∧ (λ x, InsertionOrder x.1.1) <$> log
      = seqZ (orderCounter b) (Z.of_nat (length ops))
    ∧ Forall (λ x, orderCounter x.2 = InsertionOrder x.1.1 + 1
                   ∧ match x.1.2 with
                     | None => x.1.1 ∈ elements x.2
                     | Some err => err = ErrBufferFull
                     end) log
    ∧ StronglySorted Z.lt (InsertionOrder <$> accepted log)
    ∧ Forall (λ x, x.1.2 ≠ None →
                   InsertionOrder x.1.1 ∉ InsertionOrder <$> accepted log) log
    ∧ Forall (λ e, orderCounter b <= InsertionOrder e) (accepted log)
    ∧ Forall (λ x, orderCounter b <= InsertionOrder x.1.1) log).
  { intros (log & b' & H1 & H2 & H3 & H4 & H5 & H6 & _).
    by exists log, b'. }
  revert b Hwf Hlo Hhi. induction ops as [|[v p] ops IH]; intros b Hwf Hlo Hhi.
  { exists [], b. simpl. rewrite seqZ_nil by done.
    repeat split; try done; try lia; constructor. }
  destruct (Insert_wf v p b Hwf) as (r & b1 & Hins & Hwf1 & Hc1 & Hr).
  rewrite int64_wrap_small in Hc1 by (simpl in Hhi; lia).
  destruct (IH b1 Hwf1) as
    (log & b' & Hrun & Hc & Hseq & Hlog & Hsorted & Hskip & Hacc & Hall).
  { lia. }
  { rewrite Hc1. simpl in Hhi. lia. }
  exists ((newElement v p b, r, b1) :: log), b'.
  simpl. rewrite Hins. simpl. rewrite Hrun. simpl.
  assert (Forall (λ e, orderCounter b < InsertionOrder e) (accepted log))
    as Hacc'.
  { eapply Forall_impl; [exact Hacc|]. simpl. intros. lia. }
  split; [done|]. split; [lia|]. split.
  { rewrite seqZ_cons by lia. f_equal.
    etrans; [exact Hseq|]. f_equal; lia. }
  split.
  { constructor; [|done]. simpl. split; [lia|].
    destruct r as [err|]; [by destruct Hr|done]. }
  split.
  { unfold accepted. simpl. destruct r; [done|]. simpl.
    constructor; [done|]. by apply Forall_fmap. }
  split.
  { constructor; simpl.
    - intros Hrej. destruct r; [|done]. unfold accepted. simpl.
      intros Hin. apply list_elem_of_fmap in Hin as (e' & He' & Hin).
      rewrite Forall_forall in Hacc'. specialize (Hacc' e' Hin). lia.
    - eapply Forall_impl.
      { apply Forall_and. split; [exact Hskip|exact Hall]. }
      simpl. intros x [Hx Hge] Hrej. unfold accepted. simpl.
      destruct r; simpl; [by apply Hx|].
      intros Hin. apply elem_of_cons in Hin as [Hin|Hin]; [lia|].
      by apply Hx. }
  split.
  { unfold accepted. simpl. destruct r; simpl.
    - eapply Forall_impl; [exact Hacc|]. simpl. intros. lia.
    - constructor; [simpl; lia|].
      eapply Forall_impl; [exact Hacc|]. simpl. intros. lia. }
  constructor; [simpl; lia|].
  eapply Forall_impl; [exact Hall|]. simpl. intros. lia.
Qed.

End MoreClaims.

(** * The properties on concrete buffers *)

Lemma built_reachable config ops b :
  built config ops = Some b → reachable built_make_limit 0 b.
Proof.
  unfold built. intros Hb.
  destruct (New built_make_limit 0 config) as [[[b0|] [err|]]|] eqn:Hnew;
    simpl in Hb; try done.
  - unfold New, make in Hnew.
    repeat case_match; simpl in Hnew; simplify_eq.
  - destruct (run_inserts ops b0) as [[log b']|] eqn:Hrun; simpl in Hb; [|done].
    simplify_eq. eapply run_inserts_reachable; [done|].
    by eapply reachable_New.
Qed.

Lemma fresh2_built : built (config_of 2 1 false) [] = Some fresh2.
Proof. reflexivity. Qed.

Lemma fresh1_guarded_built :
  built (config_of 1 0 true) [] = Some fresh1_guarded.
Proof. reflexivity. Qed.

Lemma full55_built :
  built (config_of 2 1 true) [(1, 5); (2, 5)] = Some full55.
Proof. reflexivity. Qed.

Lemma three_5_15_10_built :
  built (config_of 3 0 false) [(1, 5); (2, 15); (3, 10)] = Some three_5_15_10.
Proof. reflexivity. Qed.

Lemma one_of_three_built :
  built (config_of 3 2 false) [(10, 1)] = Some one_of_three.
Proof. reflexivity. Qed.

(** C1.  Capacity 3 with the window at [capacity - 1 = 2], priorities 1
    then 2 inserted: the second element outranks the first and then the
    zero-valued slots before [head], so the walk carries it out of the
    live slots, and [PeekMaxPriority] after the second [Insert] returns the
    first element, not the one just inserted. *)
Theorem PeekMaxPriority_misses_latest :
  built (config_of 3 2 false) [(10, 1)] = Some one_of_three
  ∧ PeekMaxPriority 0 one_of_three
    = Some ((element_of 10 1 0, None), one_of_three)
  ∧ Insert 20 2 one_of_three = Some (None, two_of_three)
  ∧ PeekMaxPriority 0 two_of_three
    = Some ((element_of 10 1 0, None), two_of_three)
  ∧ element_of 10 1 0 ≠ newElement 20 2 one_of_three.
Proof. repeat split; done. Qed.

(** C2.  The same [Insert], into a buffer with [0 < size < capacity]: it
    succeeds, yet the [size + 1] live slots afterwards hold a zero-valued
    element and the old element, not the old element and the new one; the
    new element is in none of them. *)
Theorem Insert_loses_new_element :
  0 < size one_of_three < capacity one_of_three
  ∧ Insert 20 2 one_of_three = Some (None, two_of_three)
  ∧ live one_of_three = [element_of 10 1 0]
  ∧ live two_of_three = [zeroElement 0; element_of 10 1 0]
  ∧ (newElement 20 2 one_of_three ∉ live two_of_three)
  ∧ ¬ (live two_of_three
       ≡ₚ newElement 20 2 one_of_three :: live one_of_three).
Proof.
  assert (newElement 20 2 one_of_three ∉ live two_of_three) as Hnot.
  { change (live two_of_three) with [zeroElement 0; element_of 10 1 0].
    intros Hin. repeat (apply elem_of_cons in Hin as [Hin|Hin]; [done|]).
    by apply elem_of_nil in Hin. }
  repeat split; try done.
  intros Hperm. apply Hnot. rewrite Hperm. by left.
Qed.

Lemma Insert_full_guarded_witness :
  wf full55 ∧ size full55 = capacity full55 ∧ overwriteGuard full55 = true
  ∧ slice_get (elements full55) (head full55) = Some (element_of 1 5 0)
  ∧ Insert 3 5 full55
    = Some (Some ErrBufferFull, set_orderCounter 3 full55)
  ∧ ∃ b' rest,
      Insert 3 6 full55 = Some (None, b')
      ∧ capacity b' = 2 ∧ size b' = 2 ∧ head b' = 1 ∧ tail b' = 1
      ∧ elements b' ≡ₚ [element_of 3 6 2; element_of 2 5 1]
      ∧ live full55 = element_of 1 5 0 :: rest
      ∧ live b' ≡ₚ rest ++ [element_of 3 6 2].
Proof.
  assert (wf full55) as Hwf
    by exact (reachable_wf _ 0 _ (built_reachable _ _ _ full55_built)).
  pose proof (Insert_full_guarded 3 5 full55 (element_of 1 5 0) Hwf
                eq_refl eq_refl eq_refl) as [Hrefused _].
  pose proof (Insert_full_guarded 3 6 full55 (element_of 1 5 0) Hwf
                eq_refl eq_refl eq_refl) as [_ Haccepted].
  split; [done|]. do 3 (split; [reflexivity|]).
  split; [apply Hrefused; simpl; lia|].
  destruct Haccepted as (b' & rest & Hins & Hcap & Hsize & Hhead & Htail
                         & Hels & Hlive & Hlive'); [simpl; lia|].
  exists b', rest.
  split; [exact Hins|]. split; [exact Hcap|]. split; [exact Hsize|].
  split; [exact Hhead|]. split; [by rewrite Htail|]. split; [exact Hels|].
  split; [exact Hlive|exact Hlive'].
Defined.

Lemma reachable_ring_inv_witness :
  reachable built_make_limit 0 full55
  ∧ ring_inv full55
  ∧ (∀ b', step 0 full55 b' → ring_inv b')
  ∧ (∀ value priority, is_Some (Insert value priority full55))
  ∧ is_Some (Dequeue 0 full55)
  ∧ is_Some (Peek 0 full55)
  ∧ is_Some (PeekMaxPriority 0 full55)
  ∧ (∀ filters, is_Some (Search filters full55))
  ∧ is_Some (Len full55).
Proof.
  assert (reachable built_make_limit 0 full55) as Hreach
    by exact (built_reachable _ _ _ full55_built).
  split; [exact Hreach|].
  exact (reachable_ring_inv built_make_limit 0 full55 Hreach).
Defined.

Lemma empty_buffer_errors_witness :
  size fresh2 = 0
  ∧ Dequeue 0 fresh2 = Some ((zeroElement 0, Some ErrBufferEmpty), fresh2)
  ∧ Peek 0 fresh2 = Some ((zeroElement 0, Some ErrBufferEmpty), fresh2)
  ∧ PeekMaxPriority 0 fresh2
    = Some ((zeroElement 0, Some (errors_New "buffer is empty")), fresh2)
  ∧ errors_New "buffer is empty" ≠ ErrBufferEmpty
  ∧ Error (errors_New "buffer is empty") = Error ErrBufferEmpty.
Proof. split; [reflexivity|]. exact (empty_buffer_errors 0 fresh2 eq_refl). Defined.

Lemma Insert_counter_witness :
  wf fresh1_guarded ∧ 0 <= orderCounter fresh1_guarded
  ∧ orderCounter fresh1_guarded + 3 < 2 ^ 63
  ∧ ∃ log b',
      run_inserts [(1, 5); (2, 5); (3, 6)] fresh1_guarded = Some (log, b')
      ∧ orderCounter b' = 3
      ∧ (λ x, x.1.2) <$> log = [None; Some ErrBufferFull; None]
      ∧ (λ x, InsertionOrder x.1.1) <$> log = [0; 1; 2]
      ∧ InsertionOrder <$> accepted log = [0; 2].
Proof.
  assert (wf fresh1_guarded) as Hwf
    by exact (reachable_wf _ 0 _ (built_reachable _ _ _ fresh1_guarded_built)).
  assert (orderCounter fresh1_guarded + 3 < 2 ^ 63) as Hhi by (simpl; lia).
  split; [done|]. split; [done|]. split; [done|].
  destruct (Insert_counter [(1, 5); (2, 5); (3, 6)] fresh1_guarded Hwf
              (Z.le_refl 0) Hhi)
    as (log & b' & Hrun & Hcounter & _).
  exists log, b'. split; [done|]. split; [done|].
  vm_compute in Hrun. injection Hrun as <- <-. repeat split; reflexivity.
Defined.

Lemma PeekMaxPriority_greatest_witness :
  wf full55 ∧ 0 < size full55
  ∧ ∃ e k,
      PeekMaxPriority 0 full55 = Some ((e, None), full55)
      ∧ e = element_of 1 5 0
      ∧ 0 <= k < size full55 ∧ live_slot full55 k = Some e
      ∧ (∀ j e', 0 <= j < size full55 → live_slot full55 j = Some e' →
           shouldSwap e' e = false
           ∧ Priority e' <= Priority e
           ∧ (Priority e' = Priority e →
              InsertionOrder e <= InsertionOrder e')
           ∧ (shouldSwap e e' = true
              ∨ (Priority e' = Priority e
                 ∧ InsertionOrder e' = InsertionOrder e)))
      ∧ (shouldSwap (element_of 1 5 0) (element_of 2 5 1) = true
         ∧ shouldSwap (element_of 2 5 1) (element_of 1 5 0) = false
         ∧ shouldSwap (element_of 3 6 2) (element_of 1 5 0) = true).
Proof.
  assert (wf full55) as Hwf
    by exact (reachable_wf _ 0 _ (built_reachable _ _ _ full55_built)).
  assert (0 < size full55) as Hpos by (simpl; lia).
  split; [done|]. split; [done|].
  destruct (PeekMaxPriority_greatest 0 full55 Hwf Hpos)
    as (e & k & Hpeek & Hk & Hslot & Hall & _).
  exists e, k. split; [done|]. split.
  { vm_compute in Hpeek. by injection Hpeek as <-. }
  split; [done|]. split; [done|]. split; [exact Hall|]. done.
Defined.

Lemma Search_offsets_witness :
  wf three_5_15_10
  ∧ Priority <$> live three_5_15_10 = [5; 15; 10]
  ∧ Search [SearchByMinPriority 10] three_5_15_10
    = Some ([1; 2], three_5_15_10)
  ∧ Search [] three_5_15_10 = Some ([0; 1; 2], three_5_15_10).
Proof.
  assert (wf three_5_15_10) as Hwf
    by exact (reachable_wf _ 0 _ (built_reachable _ _ _ three_5_15_10_built)).
  split; [done|]. split; [reflexivity|].
  destruct (Search_offsets [SearchByMinPriority 10] three_5_15_10 Hwf)
    as (Hsearch & _ & _ & Hall).
  split; [by rewrite Hsearch|by rewrite Hall].
Defined.

Lemma Insert_Dequeue_roundtrip_witness :
  wf fresh2 ∧ size fresh2 = 0
  ∧ ∃ b1 b2,
      Insert 42 7 fresh2 = Some (None, b1)
      ∧ Dequeue 0 b1 = Some ((element_of 42 7 0, None), b2)
      ∧ size b2 = 0.
Proof.
  assert (wf fresh2) as Hwf
    by exact (reachable_wf _ 0 _ (built_reachable _ _ _ fresh2_built)).
  split; [done|]. split; [reflexivity|].
  exact (Insert_Dequeue_roundtrip 0 42 7 fresh2 Hwf eq_refl).
Defined.

(** * Further properties of the code *)

(** ** The live slots, in general *)

Section LiveGeneral.

Context {T : Type} (zeroT : T).
Implicit Types (b : PriorityRingBuffer T) (e : Element T).

Lemma omap_all_Some {A B} (f : A → option B) (l : list A) :
  (∀ x, x ∈ l → is_Some (f x)) →
  Forall2 (λ x y, f x = Some y) l (omap f l).
Proof.
  induction l as [|x l IH]; intros Hf; [constructor|].
  destruct (Hf x) as [y Hy]; [by left|].
  simpl. rewrite Hy. constructor; [done|].
  apply IH. intros z Hz. apply Hf. by right.
Qed.

Lemma live_Forall2 b :
  wf b → Forall2 (λ i e, live_slot b i = Some e) (seqZ 0 (size b)) (live b).
Proof.
  intros Hwf. apply omap_all_Some. intros i Hi.
  apply elem_of_seqZ in Hi. apply live_slot_is_Some; [done|lia].
Qed.

Lemma length_live b : wf b → Z.of_nat (length (live b)) = size b.
Proof.
  intros Hwf. rewrite <- (Forall2_length _ _ _ (live_Forall2 b Hwf)).
  rewrite length_seqZ. destruct Hwf. lia.
Qed.

Lemma elem_of_live b e :
  e ∈ live b ↔ ∃ k, 0 <= k < size b ∧ live_slot b k = Some e.
Proof.
  unfold live. rewrite list_elem_of_omap. setoid_rewrite elem_of_seqZ.
  split; intros (k & Hk & He); exists k; (split; [lia|done]).
Qed.

(** Two offsets below [capacity] name the same slot only when equal. *)
Lemma ring_index_inj (c h i j : Z) :
  0 < c → 0 <= i < c → 0 <= j < c →
  (h + i) mod c = (h + j) mod c → i = j.
Proof.
  intros Hc Hi Hj Heq.
  assert ((i - j) mod c = 0) as Hdiff.
  { replace (i - j) with ((h + i) - (h + j)) by lia.
    rewrite Zminus_mod, Heq, Z.sub_diag. by apply Z.mod_0_l; lia. }
  apply Z.mod_divide in Hdiff as [q Hq]; [|lia].
  destruct (Z.lt_trichotomy q 0) as [?|[?|?]]; nia.
Qed.

(** The live slots behind the first one are the live slots of the buffer
    that [Dequeue] leaves. *)
Lemma live_dequeued b :
  wf b → size b ≠ 0 →
  live (set_size (size b - 1) (set_head ((head b + 1) mod capacity b) b))
  = omap (live_slot b) (seqZ 1 (size b - 1)).
Proof.
  intros [Hlen Hcap Hhead Htail Hsize Hring Hwin] Hnz.
  unfold live. simpl.
  rewrite <- (fmap_add_seqZ 1 0). apply list_omap_ext.
  apply Forall2_fmap_r, Forall_Forall2_diag, Forall_forall.
  intros i Hi. apply elem_of_seqZ in Hi.
  unfold live_slot. simpl.
  rewrite !go_rem_nonneg by (try apply Z.add_nonneg_nonneg;
                             try apply Z.mod_pos_bound; lia).
  simpl. f_equal. rewrite Z.add_mod_idemp_l by lia. f_equal. lia.
Qed.

End LiveGeneral.

(** ** [Dequeue], [Peek] and [Len] on the live slots *)

Section Removal.

Context {T : Type} (zeroT : T).
Implicit Types (b : PriorityRingBuffer T) (e : Element T).

Lemma Dequeue_live b :
  wf b → size b ≠ 0 →
  ∃ e, Dequeue zeroT b
       = Some ((e, None),
               set_size (size b - 1)
                 (set_head ((head b + 1) mod capacity b) b))
       ∧ live b
         = e :: live (set_size (size b - 1)
                        (set_head ((head b + 1) mod capacity b) b)).
Proof.
  intros Hwf Hnz.
  destruct (Dequeue_nonempty zeroT b Hwf Hnz) as (e & He & Hdq).
  exists e. split; [done|].
  rewrite live_dequeued by done. apply live_head; [done| |done].
  destruct Hwf. lia.
Qed.

(** X1.  On a non-empty buffer [Dequeue] returns the first live element
    and leaves the others live, in the same order; [size] drops by one,
    [head] moves one slot on, and the slice, [tail] and the insertion
    counter are not touched. *)
Theorem Dequeue_pops_head b :
  wf b → size b ≠ 0 →
  ∃ e rest b',
    live b = e :: rest
    ∧ Dequeue zeroT b = Some ((e, None), b')
    ∧ live b' = rest
    ∧ size b' = size b - 1
    ∧ head b' = (head b + 1) mod capacity b
    ∧ tail b' = tail b
    ∧ elements b' = elements b
    ∧ orderCounter b' = orderCounter b.
Proof.
  intros Hwf Hnz. destruct (Dequeue_live b Hwf Hnz) as (e & Hdq & Hlive).
  eexists e, _, _. split; [exact Hlive|]. split; [exact Hdq|]. done.
Qed.

(** X2.  On a non-empty buffer [Peek] returns the element that the next
    [Dequeue] removes, which is the first live element, and leaves the
    buffer as it was. *)
Theorem Peek_is_next_Dequeue b :
  wf b → size b ≠ 0 →
  ∃ e b',
    Peek zeroT b = Some ((e, None), b)
    ∧ Dequeue zeroT b = Some ((e, None), b')
    ∧ live b !! 0%nat = Some e.
Proof.
  intros Hwf Hnz. destruct (Dequeue_live b Hwf Hnz) as (e & Hdq & Hlive).
  destruct (Dequeue_nonempty zeroT b Hwf Hnz) as (e' & He' & Hdq').
  rewrite Hdq in Hdq'. simplify_eq.
  eexists e', _. split; [|split; [exact Hdq|by rewrite Hlive]].
  unfold Peek. destruct (Z.eqb_spec (size b) 0); [done|].
  by rewrite He'.
Qed.

Lemma run_dequeues_live n b :
  wf b → size b = Z.of_nat n →
  ∃ b', run_dequeues zeroT n b = Some ((λ e, (e, None)) <$> live b, b')
        ∧ wf b' ∧ size b' = 0 ∧ elements b' = elements b.
Proof.
  revert b. induction n as [|n IH]; intros b Hwf Hn.
  { exists b. unfold live. rewrite Hn, seqZ_nil by done. done. }
  destruct (Dequeue_live b Hwf) as (e & Hdq & Hlive); [lia|].
  destruct (IH (set_size (size b - 1)
                  (set_head ((head b + 1) mod capacity b) b)))
    as (b' & Hrun & Hwf' & Hsize' & Hels').
  { apply dequeued_wf; [done|lia]. }
  { simpl. lia. }
  exists b'. simpl. rewrite Hdq. simpl. rewrite Hrun. simpl.
  by rewrite Hlive.
Qed.

(** X3.  [Len] is the number of live elements, and that many [Dequeue]
    calls in a row all succeed, return the live elements in their logical
    order from [head], and leave an empty buffer on which [Dequeue] fails
    with [ErrBufferEmpty]. *)
Theorem Dequeue_drains_live b :
  wf b →
  Len b = Some (Z.of_nat (length (live b)), b)
  ∧ ∃ b',
      run_dequeues zeroT (length (live b)) b
      = Some ((λ e, (e, None)) <$> live b, b')
      ∧ size b' = 0 ∧ live b' = []
      ∧ Dequeue zeroT b'
        = Some ((zeroElement zeroT, Some ErrBufferEmpty), b').
Proof.
  intros Hwf. pose proof (length_live b Hwf) as Hlen.
  split; [unfold Len; by rewrite Hlen|].
  destruct (run_dequeues_live (length (live b)) b Hwf)
    as (b' & Hrun & Hwf' & Hsize' & _); [done|].
  exists b'. split; [done|]. split; [done|]. split.
  - unfold live. by rewrite Hsize', seqZ_nil.
  - by apply Dequeue_empty.
Qed.

End Removal.

(** ** What an accepted [Insert] leaves *)

Section Insertion.

Context {T : Type} (zeroT : T).
Implicit Types (b : PriorityRingBuffer T) (e : Element T).

Lemma slice_get_insert_ne {A} (s : list A) (i j : Z) x :
  0 <= j → i ≠ j →
  slice_get (<[Z.to_nat j := x]> s) i = slice_get s i.
Proof.
  intros Hj Hne. unfold slice_get. rewrite length_insert.
  destruct (Z.leb_spec 0 i); [|done]. simpl.
  destruct (Z.ltb_spec i (Z.of_nat (length s))); [|done].
  apply list_lookup_insert_ne. lia.
Qed.

Lemma slice_get_insert_eq {A} (s : list A) (i : Z) x :
  0 <= i < Z.of_nat (length s) →
  slice_get (<[Z.to_nat i := x]> s) i = Some x.
Proof.
  intros Hi. apply slice_get_Some. split; [lia|].
  apply list_lookup_insert_eq. lia.
Qed.

(** An [Insert] that returned no error wrote the new element at [tail],
    ran the local reorder and moved the cursors. *)
Lemma Insert_nil_inv value priority b b' :
  wf b → Insert value priority b = Some (None, b') →
  ∃ els,
    bubbleElement (tail b)
      (set_elements
         (<[Z.to_nat (tail b) := newElement value priority b]> (elements b))
         (set_orderCounter (int64_wrap (orderCounter b + 1)) b))
    = Some (set_elements els
              (set_orderCounter (int64_wrap (orderCounter b + 1)) b))
    ∧ els ≡ₚ <[Z.to_nat (tail b) := newElement value priority b]> (elements b)
    ∧ b' = inserted els b.
Proof.
  intros Hwf. pose proof Hwf as [Hlen Hcap Hhead Htail Hsize Hring Hwin].
  unfold Insert. simpl.
  destruct (if (size b =? capacity b) && overwriteGuard b
            then victim ← slice_get (elements b) (head b);
                 Some (priority <=? Priority victim)
            else Some false) as [[|]|]; simpl; try done.
  rewrite slice_set_in_range by lia. simpl.
  set (b1 := set_elements _ _).
  destruct (bubbleElement_permutes (tail b) b1) as (els & Hrun & Hperm).
  { subst b1. simpl. rewrite length_insert. lia. }
  { subst b1. simpl. lia. }
  change (tail (set_orderCounter (int64_wrap (orderCounter b + 1)) b))
    with (tail b) in *.
  rewrite Hrun. simpl. rewrite go_rem_nonneg by lia. simpl.
  intros Heq. exists els. split; [done|]. split; [done|].
  simplify_eq. unfold inserted. by destruct (size b =? capacity b).
Qed.

Lemma Insert_nil_wf value priority b b' :
  wf b → Insert value priority b = Some (None, b') → wf b'.
Proof.
  intros Hwf Hins.
  destruct (Insert_wf value priority b Hwf) as (r & b0 & Hins' & Hwf' & _).
  rewrite Hins in Hins'. by simplify_eq.
Qed.

(** X4.  While there is room, [Insert] never fails, guard or no guard:
    a run of [Insert] calls that fits into the free slots is accepted
    call by call, [size] grows by the number of calls, [head] stays and
    [tail] advances by that number round the ring. *)
Theorem Inserts_with_room (ops : list (T * Z)) b :
  wf b → size b + Z.of_nat (length ops) <= capacity b →
  ∃ log b',
    run_inserts ops b = Some (log, b')
    ∧ Forall (λ x, x.1.2 = None) log
    ∧ size b' = size b + Z.of_nat (length ops)
    ∧ head b' = head b
    ∧ tail b' = (tail b + Z.of_nat (length ops)) mod capacity b
    ∧ capacity b' = capacity b.
Proof.
  revert b. induction ops as [|[v p] ops IH]; intros b Hwf Hroom.
  { exists [], b. simpl. rewrite Z.add_0_r, Z.add_0_r.
    repeat split; try done. destruct Hwf. by rewrite Z.mod_small. }
  simpl in Hroom.
  destruct (Insert_accepted v p b Hwf) as (els & Hins & Hperm); [lia|].
  assert (wf (inserted els b)) as Hwf' by by eapply Insert_nil_wf.
  destruct Hwf as [Hlen Hcap Hhead Htail Hsize Hring Hwin].
  assert ((size b =? capacity b) = false) as Hnot by (apply Z.eqb_neq; lia).
  destruct (IH (inserted els b) Hwf') as (log & b' & Hrun & Hall & Hs & Hh & Ht & Hc).
  { simpl. rewrite Hnot. lia. }
  simpl in Hs, Hh, Ht, Hc. rewrite Hnot in Hs, Hh.
  exists ((newElement v p b, None, inserted els b) :: log), b'.
  simpl. rewrite Hins. simpl. rewrite Hrun. simpl.
  split; [done|]. split; [by constructor|]. split; [lia|].
  split; [done|]. split; [|done].
  rewrite Ht, Z.add_mod_idemp_l by lia. f_equal. lia.
Qed.

(** With no local reorder, the live slots after an accepted [Insert] are
    the old ones, less the oldest when the buffer was full, followed by
    the new element. *)
Lemma live_inserted_room b x :
  wf b → size b ≠ capacity b →
  live (inserted (<[Z.to_nat (tail b) := x]> (elements b)) b)
  = live b ++ [x].
Proof.
  intros [Hlen Hcap Hhead Htail Hsize Hring Hwin] Hroom.
  assert ((size b =? capacity b) = false) as Hnot by (apply Z.eqb_neq; lia).
  unfold live. simpl. rewrite Hnot.
  rewrite seqZ_app, omap_app by lia. f_equal.
  - apply list_omap_ext, Forall_Forall2_diag, Forall_forall.
    intros i Hi. apply elem_of_seqZ in Hi.
    unfold live_slot. simpl. rewrite Hnot.
    rewrite go_rem_nonneg by lia. simpl.
    apply slice_get_insert_ne; [lia|]. rewrite Hring.
    intros Heq. apply ring_index_inj in Heq; lia.
  - rewrite Z.add_0_l, seqZ_cons, seqZ_nil by lia. simpl.
    unfold live_slot. simpl. rewrite Hnot.
    rewrite go_rem_nonneg by lia. simpl.
    rewrite <- Hring, slice_get_insert_eq by lia. done.
Qed.

Lemma live_inserted_full b x :
  wf b → size b = capacity b →
  live (inserted (<[Z.to_nat (tail b) := x]> (elements b)) b)
  = drop 1 (live b) ++ [x].
Proof.
  intros Hwf Hfull. destruct (wf_head_slot b Hwf) as [victim Hvictim].
  rewrite (live_head b victim Hwf) by (done || destruct Hwf; lia).
  pose proof (ring_inv_of_wf b Hwf) as [_ Hht]. specialize (Hht Hfull).
  destruct Hwf as [Hlen Hcap Hhead Htail Hsize Hring Hwin].
  simpl. rewrite drop_0.
  unfold live at 1. simpl. rewrite Hfull, Z.eqb_refl.
  assert (seqZ 0 (capacity b)
          = seqZ 0 (capacity b - 1) ++ seqZ (0 + (capacity b - 1)) 1) as ->.
  { rewrite <- seqZ_app by lia. f_equal. lia. }
  rewrite omap_app. f_equal.
  - rewrite <- (fmap_add_seqZ 1 0). apply list_omap_ext.
    apply Forall2_fmap_r, Forall_Forall2_diag, Forall_forall.
    intros i Hi. apply elem_of_seqZ in Hi.
    unfold live_slot. simpl. rewrite Hfull, Z.eqb_refl.
    rewrite !go_rem_nonneg by (try apply Z.add_nonneg_nonneg;
                               try apply Z.mod_pos_bound; lia).
    simpl. rewrite Z.add_mod_idemp_l by lia.
    replace (tail b + 1 + i) with (head b + (1 + i)) by lia.
    apply slice_get_insert_ne; [lia|].
    intros Heq.
    assert ((head b + (1 + i)) mod capacity b = (head b + 0) mod capacity b)
      as Heq' by (rewrite Heq, Z.add_0_r, Z.mod_small; lia).
    apply ring_index_inj in Heq'; lia.
  - rewrite Z.add_0_l, seqZ_cons, seqZ_nil by lia. simpl.
    unfold live_slot. simpl. rewrite Hfull, Z.eqb_refl.
    rewrite go_rem_nonneg
      by (try apply Z.add_nonneg_nonneg; try apply Z.mod_pos_bound; lia).
    simpl. rewrite Z.add_mod_idemp_l by lia.
    replace (tail b + 1 + (capacity b - 1)) with (tail b + 1 * capacity b)
      by lia.
    rewrite Z.mod_add, Z.mod_small, slice_get_insert_eq by lia. done.
Qed.

Lemma Insert_window0_fifo_aux (value : T) (priority : Z) b b' :
  wf b → bubbleWindow b = 0 →
  Insert value priority b = Some (None, b') →
  elements b'
  = <[Z.to_nat (tail b) := newElement value priority b]> (elements b)
  ∧ live b'
    = (if decide (size b = capacity b) then drop 1 (live b) else live b)
      ++ [newElement value priority b].
Proof.
  intros Hwf Hwin Hins.
  destruct (Insert_nil_inv value priority b b' Hwf Hins)
    as (els & Hrun & _ & ->).
  unfold bubbleElement in Hrun. simpl in Hrun. rewrite Hwin in Hrun.
  simpl in Hrun. injection Hrun as <-.
  split; [done|]. case_decide.
  - by apply live_inserted_full.
  - by apply live_inserted_room.
Qed.

(** X5.  With [bubbleWindow = 0] the buffer is a plain ring: an accepted
    [Insert] writes the slot at [tail] and nothing else, and the live
    elements afterwards are the old ones in their order, without the
    oldest if the buffer was full, followed by the new element. *)
Theorem Insert_window0_fifo (value : T) (priority : Z) b b' :
  wf b → bubbleWindow b = 0 →
  Insert value priority b = Some (None, b') →
  elements b'
  = <[Z.to_nat (tail b) := newElement value priority b]> (elements b)
  ∧ live b'
    = (if decide (size b = capacity b) then drop 1 (live b) else live b)
      ++ [newElement value priority b].
Proof. apply Insert_window0_fifo_aux. Qed.

(** Every accepted [Insert] into a full buffer replaces the element at
    [head], guard or no guard. *)
Lemma Insert_full_live value priority b b' :
  wf b → size b = capacity b →
  Insert value priority b = Some (None, b') →
  ∃ victim rest,
    live b = victim :: rest
    ∧ live b' ≡ₚ rest ++ [newElement value priority b]
    ∧ size b' = capacity b
    ∧ head b' = (head b + 1) mod capacity b.
Proof.
  intros Hwf Hfull Hins.
  destruct (Insert_nil_inv value priority b b' Hwf Hins)
    as (els & _ & Hperm & ->).
  pose proof (Insert_nil_wf _ _ _ _ Hwf Hins) as Hwf'.
  destruct (wf_head_slot b Hwf) as [victim Hvictim].
  pose proof (ring_inv_of_wf b Hwf) as [_ Hht]. specialize (Hht Hfull).
  pose proof Hwf as [Hlen Hcap Hhead Htail Hsize Hring Hwin].
  rewrite <- Hht in Hperm.
  set (rest := omap (live_slot b) (seqZ 1 (size b - 1))).
  assert (live b = victim :: rest) as Hlive
    by (apply live_head; [done|lia|done]).
  assert (size (inserted els b) = capacity (inserted els b)) as Hfull'.
  { unfold inserted. simpl. by rewrite Hfull, Z.eqb_refl. }
  exists victim, rest. split; [done|].
  split; [|split; [by rewrite Hfull'
                  |simpl; by rewrite Hfull, Z.eqb_refl, Hht]].
  rewrite live_full_Permutation by done.
  change (elements (inserted els b)) with els. rewrite Hperm.
  rewrite insert_Permutation_delete by lia.
  rewrite <- Permutation_cons_append. constructor.
  apply (Permutation_cons_inv (a := victim)).
  rewrite <- Hlive, live_full_Permutation by done.
  symmetry. apply delete_Permutation.
  by apply slice_get_Some in Hvictim as [_ ?].
Qed.

(** X6.  With the overwrite guard off, [Insert] into a full buffer always
    succeeds: the buffer stays full, [head] moves one slot on, and the
    live elements are the old ones without the one at [head], plus the
    new element, whatever the priorities. *)
Theorem Insert_full_unguarded (value : T) (priority : Z) b :
  wf b → size b = capacity b → overwriteGuard b = false →
  ∃ b' victim rest,
    Insert value priority b = Some (None, b')
    ∧ live b = victim :: rest
    ∧ live b' ≡ₚ rest ++ [newElement value priority b]
    ∧ size b' = capacity b
    ∧ head b' = (head b + 1) mod capacity b.
Proof.
  intros Hwf Hfull Hguard.
  destruct (Insert_accepted value priority b Hwf) as (els & Hins & _).
  { intros _ Hg. by rewrite Hguard in Hg. }
  destruct (Insert_full_live value priority b _ Hwf Hfull Hins)
    as (victim & rest & H1 & H2 & H3 & H4).
  by exists (inserted els b), victim, rest.
Qed.

(** X7.  When the buffer is full, or the window is 0, an accepted [Insert]
    of a priority above that of every live element is followed by a
    [PeekMaxPriority] that returns the element just inserted. *)
Theorem PeekMaxPriority_after_greatest_Insert
    (value : T) (priority : Z) b b' :
  wf b → size b = capacity b ∨ bubbleWindow b = 0 →
  (∀ e, e ∈ live b → Priority e < priority) →
  Insert value priority b = Some (None, b') →
  PeekMaxPriority zeroT b'
  = Some ((newElement value priority b, None), b').
Proof.
  intros Hwf Hcase Hgreatest Hins.
  pose proof (Insert_nil_wf _ _ _ _ Hwf Hins) as Hwf'.
  assert (∃ olds, olds ⊆ live b
                  ∧ live b' ≡ₚ olds ++ [newElement value priority b])
    as (olds & Holds & Hlive').
  { destruct (decide (size b = capacity b)) as [Hfull|Hroom].
    - destruct (Insert_full_live value priority b b' Hwf Hfull Hins)
        as (victim & rest & Hlive & Hperm & _).
      exists rest. split; [|done]. rewrite Hlive. intros x Hx. by right.
    - destruct Hcase as [?|Hwin]; [done|].
      destruct (Insert_window0_fifo_aux value priority b b' Hwf Hwin Hins)
        as [_ Hl].
      rewrite decide_False in Hl by done.
      exists (live b). by rewrite Hl. }
  assert (0 < size b') as Hpos.
  { rewrite <- (length_live b' Hwf'), Hlive', length_app. simpl. lia. }
  destruct (PeekMaxPriority_nonempty zeroT b' Hwf' Hpos)
    as (e & k & Hpeek & Hk & Hslot & Hmax).
  rewrite Hpeek. do 3 f_equal.
  assert (e ∈ live b') as He by (apply elem_of_live; eauto).
  assert (newElement value priority b ∈ live b') as Hnew.
  { rewrite Hlive'. apply elem_of_app. right. by left. }
  apply elem_of_live in Hnew as (j & Hj & Hjslot).
  specialize (Hmax j _ Hj Hjslot). apply shouldSwap_false in Hmax as [Hle _].
  rewrite Hlive' in He. apply elem_of_app in He as [He|He].
  - apply Holds, Hgreatest in He. simpl in Hle. lia.
  - by apply list_elem_of_singleton in He.
Qed.

End Insertion.

(** ** The ranking of elements *)

Section Ranking.

Context {T : Type}.
Implicit Types (e : Element T).

(** X8.  [shouldSwap] is a strict order on elements that leaves only
    elements of the same priority and the same insertion order unranked:
    no element outranks itself, two elements never outrank each other,
    outranking is transitive, and of two elements that differ in priority
    or in insertion order one outranks the other. *)
Theorem shouldSwap_strict_order (e1 e2 e3 : Element T) :
  shouldSwap e1 e1 = false
  ∧ (shouldSwap e1 e2 = true → shouldSwap e2 e1 = false)
  ∧ (shouldSwap e1 e2 = true → shouldSwap e2 e3 = true →
     shouldSwap e1 e3 = true)
  ∧ (shouldSwap e1 e2 = false → shouldSwap e2 e1 = false →
     Priority e1 = Priority e2 ∧ InsertionOrder e1 = InsertionOrder e2).
Proof.
  rewrite !shouldSwap_true, !shouldSwap_false. repeat split; lia.
Qed.

End Ranking.

(** ** [Search] and its filters *)

Section SearchMore.

Context {T : Type} `{EqDecision T} (zeroT : T).
Implicit Types (b : PriorityRingBuffer T) (e : Element T).

Lemma elem_of_Search_spec (filters : list (SearchFilter T)) b i :
  i ∈ Search_spec filters b ↔
  0 <= i < size b
  ∧ ∃ e, live_slot b i = Some e ∧ ∀ filter, filter ∈ filters → filter e = true.
Proof.
  unfold Search_spec.
  rewrite list_elem_of_In, filter_In, <- list_elem_of_In, elem_of_seqZ.
  unfold matches_at, satisfies_all. split.
  - intros [Hi Hm]. split; [lia|].
    destruct (live_slot b i) as [e|]; [|done].
    exists e. split; [done|]. intros f Hf.
    rewrite forallb_forall in Hm. apply Hm. by apply list_elem_of_In.
  - intros [Hi (e & -> & Hall)]. split; [lia|].
    apply forallb_forall. intros f Hf. apply Hall. by apply list_elem_of_In.
Qed.

Lemma filter_andb {A} (f g : A → bool) (l : list A) :
  List.filter (λ x, f x && g x) l = List.filter g (List.filter f l).
Proof.
  induction l as [|x l IH]; [done|]. simpl.
  destruct (f x); simpl; [destruct (g x)|]; by rewrite IH.
Qed.

(** X9.  Filters compose by conjunction: [Search] with the filters [fs]
    followed by [gs] returns the offsets that [Search] with [fs] returns,
    kept in order, less those whose element fails a filter of [gs]; so an
    offset is returned exactly when both searches return it. *)
Theorem Search_filters_append (fs gs : list (SearchFilter T)) b :
  wf b →
  ∃ rf rg r,
    Search fs b = Some (rf, b) ∧ Search gs b = Some (rg, b)
    ∧ Search (fs ++ gs) b = Some (r, b)
    ∧ r = List.filter (matches_at gs b) rf
    ∧ ∀ i, i ∈ r ↔ i ∈ rf ∧ i ∈ rg.
Proof.
  intros Hwf. eexists _, _, _.
  split; [by apply Search_refines|]. split; [by apply Search_refines|].
  split; [by apply Search_refines|].
  assert (Search_spec (fs ++ gs) b
          = List.filter (matches_at gs b) (Search_spec fs b)) as Heq.
  { unfold Search_spec. rewrite <- filter_andb. apply filter_ext.
    intros i. unfold matches_at, satisfies_all.
    destruct (live_slot b i); [|done]. apply forallb_app. }
  split; [done|]. intros i. rewrite Heq at 1.
  rewrite list_elem_of_In, filter_In, <- list_elem_of_In.
  rewrite !elem_of_Search_spec. unfold matches_at, satisfies_all. split.
  - intros [(Hi & e & He & Hfs) Hgs]. rewrite He in Hgs.
    rewrite forallb_forall in Hgs.
    repeat split; try lia; exists e; (split; [done|]); [done|].
    intros g Hg. by apply Hgs, list_elem_of_In.
  - intros [(Hi & e & He & Hfs) (_ & e' & He' & Hgs)].
    rewrite He in He'. simplify_eq.
    split; [split; [done|by exists e']|].
    rewrite He. apply forallb_forall. intros g Hg.
    by apply Hgs, list_elem_of_In.
Qed.

(** X10.  The three filter constructors: [Search] with [SearchByValue v]
    returns the live offsets whose element has the value [v], with
    [SearchByPriority p] those of priority exactly [p], and with
    [SearchByMinPriority m] those of priority at least [m]. *)
Theorem Search_by_constructors (v : T) (p m : Z) b :
  wf b →
  ∃ rv rp rm,
    Search [SearchByValue v] b = Some (rv, b)
    ∧ Search [SearchByPriority p] b = Some (rp, b)
    ∧ Search [SearchByMinPriority m] b = Some (rm, b)
    ∧ (∀ i, i ∈ rv ↔
            0 <= i < size b ∧ ∃ e, live_slot b i = Some e ∧ Value e = v)
    ∧ (∀ i, i ∈ rp ↔
            0 <= i < size b ∧ ∃ e, live_slot b i = Some e ∧ Priority e = p)
    ∧ (∀ i, i ∈ rm ↔
            0 <= i < size b ∧ ∃ e, live_slot b i = Some e ∧ m <= Priority e).
Proof.
  intros Hwf. eexists _, _, _.
  split; [by apply Search_refines|]. split; [by apply Search_refines|].
  split; [by apply Search_refines|].
  (split; [|split]); intros i; rewrite elem_of_Search_spec;
    (split; intros [Hi (e & He & Hf)]; (split; [done|]); exists e;
     (split; [done|])).
  - specialize (Hf _ (list_elem_of_here _ _)).
    by apply bool_decide_eq_true in Hf.
  - intros f Hf'. apply list_elem_of_singleton in Hf' as ->.
    by apply bool_decide_eq_true.
  - specialize (Hf _ (list_elem_of_here _ _)). by apply Z.eqb_eq in Hf.
  - intros f Hf'. apply list_elem_of_singleton in Hf' as ->.
    by apply Z.eqb_eq.
  - specialize (Hf _ (list_elem_of_here _ _)).
    unfold SearchByMinPriority in Hf. lia.
  - intros f Hf'. apply list_elem_of_singleton in Hf' as ->.
    unfold SearchByMinPriority. lia.
Qed.

(** X11.  [PeekMaxPriority] and [Search] agree: when [PeekMaxPriority]
    returns an element of priority [p] below the largest [int] (so that
    [p + 1] does not wrap), a search for priority [p + 1] or more returns
    nothing, and a search for priority exactly [p] returns at least one
    offset. *)
Theorem Search_above_PeekMaxPriority b e b' :
  wf b → PeekMaxPriority zeroT b = Some ((e, None), b') →
  Priority e < 2 ^ 63 - 1 →
  Search [SearchByMinPriority (int64_wrap (Priority e + 1))] b = Some ([], b)
  ∧ ∃ k rest, Search [SearchByPriority (Priority e)] b = Some (k :: rest, b).
Proof.
  intros Hwf Hpeek Hbelow.
  assert (Priority e < int64_wrap (Priority e + 1)) as Hnext.
  { unfold int64_wrap.
    pose proof (Z.mod_pos_bound (Priority e + 1 + 2 ^ 63) (2 ^ 64)
                  ltac:(lia)) as Hm.
    destruct (Z.le_gt_cases (- 2 ^ 63) (Priority e + 1)) as [Hlo|Hlo].
    - rewrite Z.mod_small; lia.
    - lia. }
  revert Hnext. generalize (int64_wrap (Priority e + 1)). intros next Hnext.
  assert (0 < size b) as Hpos.
  { unfold PeekMaxPriority in Hpeek.
    destruct (Z.eqb_spec (size b) 0); [done|]. destruct Hwf. lia. }
  destruct (PeekMaxPriority_nonempty zeroT b Hwf Hpos)
    as (e0 & k & Hpeek0 & Hk & Hslot & Hmax).
  rewrite Hpeek in Hpeek0. simplify_eq.
  rewrite !Search_refines by done. split.
  - do 2 f_equal.
    destruct (Search_spec [SearchByMinPriority next] b)
      as [|i l] eqn:Hs; [done|].
    assert (i ∈ Search_spec [SearchByMinPriority next] b)
      as Hi by (rewrite Hs; by left).
    apply elem_of_Search_spec in Hi as (Hi & e' & He' & Hf).
    specialize (Hf _ (list_elem_of_here _ _)).
    specialize (Hmax i e' Hi He'). apply shouldSwap_false in Hmax.
    unfold SearchByMinPriority in Hf. lia.
  - destruct (Search_spec [SearchByPriority (Priority e0)] b)
      as [|i l] eqn:Hs; [|by eexists _, _].
    assert (k ∈ Search_spec [SearchByPriority (Priority e0)] b) as Hin.
    { apply elem_of_Search_spec. split; [done|]. exists e0. split; [done|].
      intros f Hf. apply list_elem_of_singleton in Hf as ->.
      by apply Z.eqb_eq. }
    rewrite Hs in Hin. by apply elem_of_nil in Hin.
Qed.

End SearchMore.

(** ** What no operation changes, and where the slots' contents come from *)

Section Provenance.

Context {T : Type} (make_limit : N) (zeroT : T).
Implicit Types (b : PriorityRingBuffer T) (e : Element T).

Lemma elem_of_insert_inv {A} (l : list A) i x y :
  y ∈ <[i := x]> l → y = x ∨ y ∈ l.
Proof.
  intros Hy. apply list_elem_of_lookup in Hy as [j Hj].
  apply list_lookup_insert_Some in Hj as [(_ & -> & _)|[_ Hj]]; [by left|].
  right. by eapply list_elem_of_lookup_2.
Qed.

(** Every call leaves the configuration and the number of slots alone,
    never lowers the insertion counter while it is below the end of its
    range, and puts into the slots only what was there or the element of
    the call. *)
Lemma step_frame b b' :
  wf b → step zeroT b b' →
  capacity b' = capacity b ∧ bubbleWindow b' = bubbleWindow b
  ∧ overwriteGuard b' = overwriteGuard b
  ∧ length (elements b') = length (elements b)
  ∧ (orderCounter b' = orderCounter b
     ∧ elements b' = elements b
     ∨ orderCounter b' = int64_wrap (orderCounter b + 1)
       ∧ ∀ e, e ∈ elements b' →
              e ∈ elements b ∨ InsertionOrder e = orderCounter b).
Proof.
  intros Hwf Hstep.
  destruct Hstep as [v p r b' H|r b' H|r b' H|r b' H|fs r b' H|r b' H].
  - destruct r as [err|].
    + destruct (Insert_wf v p b Hwf) as (r0 & b0 & Hins & _ & _ & Hr).
      rewrite H in Hins. simplify_eq. destruct Hr as [_ ->]. simpl.
      repeat split; try done. right. split; [done|]. by left.
    + destruct (Insert_nil_inv v p b b' Hwf H) as (els & _ & Hperm & ->).
      simpl. repeat split; try done.
      { by rewrite (Permutation_length Hperm), length_insert. }
      right. split; [done|]. intros e He. rewrite Hperm in He.
      apply elem_of_insert_inv in He as [->|He]; [by right|by left].
  - destruct (decide (size b = 0)) as [Hz|Hnz].
    + rewrite Dequeue_empty in H by done. simplify_eq.
      repeat split; try done. by left.
    + destruct (Dequeue_nonempty zeroT b Hwf Hnz) as (e & _ & Hdq).
      rewrite Hdq in H. simplify_eq. simpl. repeat split; try done. by left.
  - destruct (Peek_unchanged zeroT b Hwf) as (r0 & Hp).
    rewrite Hp in H. simplify_eq. repeat split; try done. by left.
  - destruct (PeekMaxPriority_unchanged zeroT b Hwf) as (r0 & Hp).
    rewrite Hp in H. simplify_eq. repeat split; try done. by left.
  - rewrite Search_refines in H by done. simplify_eq.
    repeat split; try done. by left.
  - unfold Len in H. simplify_eq. repeat split; try done. by left.
Qed.

(** X12.  The configuration is fixed at construction: after any sequence
    of calls on a buffer that [New] returned, [capacity], [bubbleWindow]
    and [overwriteGuard] are those of the configuration and the slice
    still has [capacity] slots. *)
Theorem configuration_is_fixed (config : Config) b0 b :
  New make_limit zeroT config = Some (Some b0, None) → calls zeroT b0 b →
  capacity b = Capacity config
  ∧ bubbleWindow b = BubbleWindow config
  ∧ overwriteGuard b = OverwriteGuard config
  ∧ Z.of_nat (length (elements b)) = Capacity config.
Proof.
  intros Hnew Hsteps.
  assert (wf b0 ∧ capacity b0 = Capacity config
          ∧ bubbleWindow b0 = BubbleWindow config
          ∧ overwriteGuard b0 = OverwriteGuard config) as Hstart.
  { split; [by eapply New_wf|].
    by apply New_Some in Hnew as (_ & _ & _ & ->). }
  clear Hnew. induction Hsteps as [b|b b1 b2 Hstep _ IH].
  - destruct Hstart as ([Hlen _ _ _ _ _ _] & Hc & Hw & Hg).
    repeat split; try done. by rewrite Hlen.
  - destruct Hstart as (Hwf & Hc & Hw & Hg).
    destruct (step_frame b b1 Hwf Hstep) as (Hc1 & Hw1 & Hg1 & _).
    apply IH. split; [by eapply step_wf|]. by rewrite Hc1, Hw1, Hg1.
Qed.

(** X13.  Below the end of the [int64] range, no call lowers the insertion
    counter, and every call keeps the insertion orders in the slots at or
    below the counter. *)
Theorem step_keeps_orders_bounded b b' :
  wf b → orders_bounded b →
  - 2 ^ 63 <= orderCounter b < 2 ^ 63 - 1 →
  step zeroT b b' →
  orders_bounded b' ∧ orderCounter b <= orderCounter b' <= orderCounter b + 1.
Proof.
  intros Hwf Hbound Hrange Hstep.
  destruct (step_frame b b' Hwf Hstep) as (_ & _ & _ & _ & Hcases).
  unfold orders_bounded in *.
  destruct Hcases as [[-> ->]|[Hc Hels]]; [split; [done|lia]|].
  rewrite int64_wrap_small in Hc by lia. rewrite Hc. split; [|lia].
  apply Forall_forall. intros e He.
  destruct (Hels e He) as [Hold| ->]; [|lia].
  rewrite Forall_forall in Hbound. specialize (Hbound e Hold). lia.
Qed.

Lemma insert_submseteq {A} (l : list A) i x : <[i := x]> l ⊆+ x :: l.
Proof.
  destruct (decide (i < length l)%nat) as [Hi|Hi].
  - rewrite insert_Permutation_delete by done.
    apply submseteq_skip, sublist_submseteq, sublist_delete.
  - rewrite list_insert_ge by lia. by apply submseteq_cons.
Qed.

(** X14.  [Insert] neither invents nor duplicates elements: after a run of
    [Insert] calls the slots are, counted with multiplicity, among the
    slots before the run together with the elements of the calls of the
    run that were accepted, and there are as many slots as before.  So
    every slot holds what some slot held before the run or an accepted
    element, and nothing occurs more often than it was there or was
    accepted. *)
Theorem slots_come_from_accepted (ops : list (T * Z)) b log b' :
  wf b → run_inserts ops b = Some (log, b') →
  elements b' ⊆+ elements b ++ accepted log
  ∧ length (elements b') = length (elements b)
  ∧ ∀ e, e ∈ elements b' → e ∈ elements b ∨ e ∈ accepted log.
Proof.
  intros Hwf Hrun.
  assert (elements b' ⊆+ elements b ++ accepted log
          ∧ length (elements b') = length (elements b)) as [Hsub Hlen].
  { revert b log b' Hwf Hrun.
    induction ops as [|[v p] ops IH]; intros b log b' Hwf Hrun.
    { simpl in Hrun. simplify_eq. unfold accepted. simpl.
      by rewrite app_nil_r. }
    simpl in Hrun.
    destruct (Insert v p b) as [[r b1]|] eqn:Hins; [|done]. simpl in Hrun.
    destruct (run_inserts ops b1) as [[log1 b2]|] eqn:Hrest; [|done].
    simpl in Hrun. simplify_eq.
    destruct (Insert_wf v p b Hwf) as (r0 & b0 & Hins' & Hwf1 & _ & Hr).
    rewrite Hins in Hins'. simplify_eq.
    destruct (IH b0 log1 b' Hwf1 Hrest) as [Hsub Hlen].
    destruct r0 as [err|].
    - destruct Hr as [_ ->]. done.
    - destruct (Insert_nil_inv v p b b0 Hwf Hins) as (els & _ & Hperm & ->).
      simpl in Hsub, Hlen. split.
      + etrans; [exact Hsub|]. unfold accepted. simpl.
        etrans; [apply submseteq_skips_r; etrans;
                 [apply Permutation_submseteq, Hperm
                 |apply insert_submseteq]|].
        apply Permutation_submseteq. simpl. apply Permutation_middle.
      + by rewrite Hlen, (Permutation_length Hperm), length_insert. }
  split; [done|]. split; [done|].
  intros e He. apply elem_of_app. by eapply elem_of_submseteq.
Qed.

End Provenance.

(** ** The reach of the local reorder *)

Section Window.

Context {T : Type} (zeroT : T).
Implicit Types (b : PriorityRingBuffer T) (e : Element T).

Lemma previous_index (c idx : Z) :
  0 < c → (idx - 1 + c) mod c = slots_before c idx 1.
Proof.
  intros Hc. unfold slots_before.
  replace (idx - 1 + c) with (idx - 1 + 1 * c) by lia.
  by rewrite Z.mod_add by lia.
Qed.

Lemma slots_before_step (c idx k : Z) :
  0 < c → slots_before c (slots_before c idx 1) k = slots_before c idx (k + 1).
Proof.
  intros Hc. unfold slots_before.
  rewrite Zminus_mod_idemp_l. f_equal. lia.
Qed.

(** A slot more than [n] slots before [idx] is out of reach of [n] steps
    of the walk that starts at [idx]. *)
Lemma bubble_loop_reach n idx b b' :
  Z.of_nat (length (elements b)) = capacity b →
  0 <= idx < capacity b →
  bubble_loop n idx b = Some b' →
  ∀ j, 0 <= j < capacity b →
       Z.of_nat n < (idx - j) mod capacity b →
       slice_get (elements b') j = slice_get (elements b) j.
Proof.
  revert idx b. induction n as [|n IH]; intros idx b Hlen Hidx Hrun j Hj Hfar.
  { simpl in Hrun. by simplify_eq. }
  simpl in Hrun. destruct (size b >? 0); simpl in Hrun; [|by simplify_eq].
  rewrite go_rem_nonneg in Hrun by lia. simpl in Hrun.
  rewrite previous_index in Hrun by lia.
  set (prev := slots_before (capacity b) idx 1) in *.
  assert (0 <= prev < capacity b) as Hprev by (apply Z.mod_pos_bound; lia).
  destruct ((size b =? capacity b) && (prev =? head b)); [by simplify_eq|].
  destruct (slice_get (elements b) idx) as [cur|]; [|done].
  destruct (slice_get (elements b) prev) as [prv|]; [|done].
  simpl in Hrun. destruct (shouldSwap cur prv); [|by simplify_eq].
  rewrite slice_set_in_range in Hrun by lia. simpl in Hrun.
  rewrite slice_set_in_range in Hrun by (rewrite length_insert; lia).
  simpl in Hrun.
  assert ((idx - j) mod capacity b < capacity b)
    by (apply Z.mod_pos_bound; lia).
  assert ((prev - j) mod capacity b = (idx - j) mod capacity b - 1) as Hstep.
  { subst prev. unfold slots_before.
    rewrite Zminus_mod_idemp_l.
    replace (idx - 1 - j) with (idx - j - 1) by lia.
    rewrite <- Zminus_mod_idemp_l. apply Z.mod_small. lia. }
  assert (j ≠ idx).
  { intros ->. rewrite Z.sub_diag, Z.mod_0_l in Hfar by lia. lia. }
  assert (j ≠ prev).
  { intros ->. rewrite Z.sub_diag, Z.mod_0_l in Hstep by lia. lia. }
  set (b2 := set_elements _ b) in Hrun.
  assert (Z.of_nat (length (elements b2)) = capacity b2) as Hlen2
    by (simpl; rewrite !length_insert; lia).
  rewrite (IH prev b2 Hlen2 Hprev Hrun j Hj) by (simpl; lia).
  simpl. rewrite !slice_get_insert_ne by lia. done.
Qed.

(** The element the walk carries ends at most [n] slots before the slot it
    started from. *)
Lemma bubble_loop_position n idx b b' cur :
  Z.of_nat (length (elements b)) = capacity b →
  0 <= idx < capacity b →
  slice_get (elements b) idx = Some cur →
  bubble_loop n idx b = Some b' →
  ∃ k, 0 <= k <= Z.of_nat n
       ∧ slice_get (elements b') (slots_before (capacity b) idx k) = Some cur.
Proof.
  revert idx b. induction n as [|n IH]; intros idx b Hlen Hidx Hcur Hrun.
  { simpl in Hrun. simplify_eq. exists 0. split; [lia|].
    unfold slots_before. by rewrite Z.sub_0_r, Z.mod_small. }
  assert (∃ k, 0 <= k <= Z.of_nat (S n)
               ∧ slice_get (elements b) (slots_before (capacity b) idx k)
                 = Some cur) as Hstay.
  { exists 0. split; [lia|].
    unfold slots_before. by rewrite Z.sub_0_r, Z.mod_small. }
  simpl in Hrun. destruct (size b >? 0); simpl in Hrun; [|by simplify_eq].
  rewrite go_rem_nonneg in Hrun by lia. simpl in Hrun.
  rewrite previous_index in Hrun by lia.
  set (prev := slots_before (capacity b) idx 1) in *.
  assert (0 <= prev < capacity b) as Hprev by (apply Z.mod_pos_bound; lia).
  destruct ((size b =? capacity b) && (prev =? head b)); [by simplify_eq|].
  rewrite Hcur in Hrun. simpl in Hrun.
  destruct (slice_get (elements b) prev) as [prv|]; [|done].
  simpl in Hrun. destruct (shouldSwap cur prv); [|by simplify_eq].
  rewrite slice_set_in_range in Hrun by lia. simpl in Hrun.
  rewrite slice_set_in_range in Hrun by (rewrite length_insert; lia).
  simpl in Hrun.
  set (b2 := set_elements _ b) in Hrun.
  assert (Z.of_nat (length (elements b2)) = capacity b2) as Hlen2
    by (simpl; rewrite !length_insert; lia).
  assert (slice_get (elements b2) prev = Some cur) as Hcur2
    by (simpl; apply slice_get_insert_eq; rewrite length_insert; lia).
  destruct (IH prev b2 Hlen2 Hprev Hcur2 Hrun) as (k & Hk & Hslot).
  exists (k + 1). split; [lia|]. simpl in Hslot.
  subst prev. by rewrite slots_before_step in Hslot by lia.
Qed.

(** X15.  The local reorder is bounded by the window: after an accepted
    [Insert] the new element sits at most [bubbleWindow] slots before the
    slot at [tail] it was written to, and every slot more than
    [bubbleWindow] slots before [tail], going round the ring, holds what
    it held. *)
Theorem Insert_reorders_within_window (value : T) (priority : Z) b b' :
  wf b → Insert value priority b = Some (None, b') →
  (∃ k, 0 <= k <= bubbleWindow b
        ∧ slice_get (elements b') (slots_before (capacity b) (tail b) k)
          = Some (newElement value priority b))
  ∧ ∀ j, 0 <= j < capacity b →
         bubbleWindow b < (tail b - j) mod capacity b →
         slice_get (elements b') j = slice_get (elements b) j.
Proof.
  intros Hwf Hins.
  destruct (Insert_nil_inv value priority b b' Hwf Hins)
    as (els & Hrun & _ & ->).
  destruct Hwf as [Hlen Hcap Hhead Htail Hsize Hring Hwin].
  unfold bubbleElement in Hrun. simpl in Hrun.
  set (b1 := set_elements _ _) in Hrun.
  assert (Z.of_nat (length (elements b1)) = capacity b1) as Hlen1
    by (simpl; rewrite length_insert; lia).
  assert (0 <= tail b < capacity b1) as Htail1 by (simpl; lia).
  assert (slice_get (elements b1) (tail b)
          = Some (newElement value priority b)) as Hnew1
    by (simpl; apply slice_get_insert_eq; lia).
  split.
  - destruct (bubble_loop_position _ _ b1 _ (newElement value priority b)
                Hlen1 Htail1 Hnew1 Hrun)
      as (k & Hk & Hslot).
    exists k. split; [lia|]. exact Hslot.
  - intros j Hj Hfar.
    assert (0 <= j < capacity b1) as Hj1 by (simpl; lia).
    assert (Z.of_nat (Z.to_nat (bubbleWindow b))
            < (tail b - j) mod capacity b1) as Hfar1 by (simpl; lia).
    pose proof (bubble_loop_reach _ _ b1 _ Hlen1 Htail1 Hrun j Hj1 Hfar1)
      as Heq.
    simpl in Heq. simpl. rewrite Heq.
    apply slice_get_insert_ne; [lia|].
    intros ->. rewrite Z.sub_diag, Z.mod_0_l in Hfar by lia. lia.
Qed.

End Window.

(** ** The earlier iteration against the final one *)

Section EarlierIteration.

Context {T : Type} (make_limit : N) (zeroT : T).
Implicit Types (b : PriorityRingBuffer T) (e : Element T).

(** While the element being carried has the greatest insertion order of
    the slice, the swap test of the earlier loop and [shouldSwap] agree,
    and so do the two loops. *)
Lemma insert_loop_bubble_loop n idx b cur :
  Z.of_nat (length (elements b)) = capacity b →
  0 <= idx < capacity b →
  slice_get (elements b) idx = Some cur →
  Forall (λ e, InsertionOrder e <= InsertionOrder cur) (elements b) →
  Earlier.insert_loop n idx b = bubble_loop n idx b.
Proof.
  revert idx b. induction n as [|n IH]; intros idx b Hlen Hidx Hcur Hall;
    [done|].
  simpl. destruct (size b >? 0); simpl; [|done].
  rewrite go_rem_nonneg by lia. simpl.
  set (prev := (idx - 1 + capacity b) mod capacity b).
  assert (0 <= prev < capacity b) as Hprev by (apply Z.mod_pos_bound; lia).
  destruct ((size b =? capacity b) && (prev =? head b)); [done|].
  destruct (slice_get_is_Some (elements b) prev) as [prv Hprv]; [lia|].
  rewrite Hcur, Hprv. simpl.
  assert (InsertionOrder prv <= InsertionOrder cur) as Hle.
  { rewrite Forall_forall in Hall. apply Hall.
    apply slice_get_Some in Hprv as [_ Hprv].
    by eapply list_elem_of_lookup_2. }
  assert ((Priority cur >? Priority prv)
          || (InsertionOrder cur <? InsertionOrder prv)
          = shouldSwap cur prv) as ->.
  { unfold shouldSwap.
    destruct (Z.ltb_spec (InsertionOrder cur) (InsertionOrder prv)); [lia|].
    by rewrite andb_false_r. }
  destruct (shouldSwap cur prv); [|done].
  rewrite slice_set_in_range by lia. simpl.
  rewrite slice_set_in_range by (rewrite length_insert; lia). simpl.
  apply IH; simpl.
  - rewrite !length_insert. lia.
  - done.
  - apply slice_get_insert_eq. rewrite length_insert. lia.
  - by repeat apply Forall_insert.
Qed.

Lemma Earlier_Insert_step (value : T) (priority : Z) b r b' :
  wf b → orders_bounded b →
  Insert value priority b = Some (r, b') →
  Earlier.Insert value priority b = Some (earlier_error <$> r, b').
Proof.
  intros [Hlen Hcap Hhead Htail Hsize Hring Hwin] Hbound.
  unfold Insert, Earlier.Insert. simpl.
  destruct (if (size b =? capacity b) && overwriteGuard b
            then victim ← slice_get (elements b) (head b);
                 Some (priority <=? Priority victim)
            else Some false) as [[|]|]; simpl; [| |done].
  - intros Hins. by simplify_eq.
  - rewrite slice_set_in_range by lia. simpl.
    rewrite (insert_loop_bubble_loop _ _ _
               {| Value := value; Priority := priority;
                  InsertionOrder := orderCounter b |}); simpl.
    + unfold bubbleElement. simpl.
      destruct (bubble_loop _ _ _) as [b1|]; simpl; [|done].
      destruct (go_rem _ _); simpl; [|done].
      intros Hins. by simplify_eq.
    + rewrite length_insert. lia.
    + lia.
    + apply slice_get_insert_eq. lia.
    + apply Forall_insert; [exact Hbound|done].
Qed.

(** X16.  On a buffer whose insertion orders do not exceed the counter,
    the earlier [Insert] leaves the same buffer as the final one and
    fails when it fails, with an error of the same text made on the spot;
    the earlier [Dequeue], [PeekHead] and [Size] agree with [Dequeue],
    [Peek] and [Len] likewise, and [Capacity] returns [capacity]. *)
Theorem Earlier_agrees (value : T) (priority : Z) b :
  wf b → orders_bounded b →
  (∃ r b', Insert value priority b = Some (r, b')
           ∧ Earlier.Insert value priority b
             = Some (earlier_error <$> r, b'))
  ∧ (∃ e r b', Dequeue zeroT b = Some ((e, r), b')
               ∧ Earlier.Dequeue zeroT b
                 = Some ((e, earlier_error <$> r), b'))
  ∧ (∃ e r, Peek zeroT b = Some ((e, r), b)
            ∧ Earlier.PeekHead zeroT b
              = Some ((e, earlier_error <$> r), b))
  ∧ Earlier.Size b = Len b
  ∧ Earlier.Capacity b = Some (capacity b, b).
Proof.
  intros Hwf Hbound. split; [|split; [|split]].
  - destruct (Insert_wf value priority b Hwf) as (r & b' & Hins & _).
    exists r, b'. split; [done|]. by apply Earlier_Insert_step.
  - destruct (Dequeue_wf zeroT b Hwf) as ([e r] & b' & Hdq & _).
    exists e, r, b'. split; [done|].
    unfold Dequeue in Hdq. unfold Earlier.Dequeue.
    destruct (size b =? 0); [by simplify_eq|].
    destruct (slice_get _ _); simpl in *; [|done].
    destruct (go_rem _ _); simpl in *; [|done]. by simplify_eq.
  - destruct (Peek_unchanged zeroT b Hwf) as ([e r] & Hp).
    exists e, r. split; [done|].
    unfold Peek in Hp. unfold Earlier.PeekHead.
    destruct (size b =? 0); [by simplify_eq|].
    destruct (slice_get _ _); simpl in *; [|done]. by simplify_eq.
  - done.
Qed.

Lemma Insert_orders_bounded (value : T) (priority : Z) b r b' :
  wf b → orders_bounded b → - 2 ^ 63 <= orderCounter b < 2 ^ 63 - 1 →
  Insert value priority b = Some (r, b') →
  orders_bounded b' ∧ orderCounter b' = orderCounter b + 1.
Proof.
  intros Hwf Hbound Hrange Hins.
  destruct (step_frame zeroT b b' Hwf) as (_ & _ & _ & _ & Hcases);
    [by econstructor|].
  destruct (Insert_wf value priority b Hwf) as (r0 & b0 & Hins' & _ & Hc & _).
  rewrite Hins in Hins'. simplify_eq.
  rewrite int64_wrap_small in Hc by lia. split; [|done].
  unfold orders_bounded in *. rewrite Hc.
  destruct Hcases as [[_ ->]|[_ Hels]].
  - eapply Forall_impl; [exact Hbound|]. simpl. intros. lia.
  - apply Forall_forall. intros e He.
    destruct (Hels e He) as [Hold| ->]; [|lia].
    rewrite Forall_forall in Hbound. specialize (Hbound e Hold). lia.
Qed.

Lemma Earlier_run_agrees (ops : list (T * Z)) b :
  wf b → orders_bounded b → 0 <= orderCounter b →
  orderCounter b + Z.of_nat (length ops) < 2 ^ 63 →
  ∃ log b',
    run_inserts ops b = Some (log, b')
    ∧ Earlier.run_inserts ops b = Some (earlier_results log, b').
Proof.
  revert b. induction ops as [|[v p] ops IH]; intros b Hwf Hbound Hlo Hhi.
  { by exists [], b. }
  simpl in Hhi.
  destruct (Insert_wf v p b Hwf) as (r & b1 & Hins & Hwf1 & _).
  destruct (Insert_orders_bounded v p b r b1 Hwf Hbound) as [Hbound1 Hc1];
    [lia|done|].
  destruct (IH b1 Hwf1 Hbound1) as (log & b' & Hrun & Hrun'); [lia..|].
  exists ((newElement v p b, r, b1) :: log), b'.
  simpl. rewrite Hins. simpl. rewrite Hrun. simpl. split; [done|].
  rewrite (Earlier_Insert_step v p b r b1 Hwf Hbound Hins). simpl.
  by rewrite Hrun'.
Qed.

(** X17.  Where the final [New] accepts a configuration, the earlier
    [New] builds the same buffer, and any run of fewer than [2 ^ 63]
    [Insert] calls on it goes the same way in both iterations: the same
    calls are refused and the same buffer is left. *)
Theorem Earlier_New_and_Inserts_agree (config : Config) b0
    (ops : list (T * Z)) :
  New make_limit zeroT config = Some (Some b0, None) →
  Z.of_nat (length ops) < 2 ^ 63 →
  Earlier.New make_limit zeroT config = Some b0
  ∧ ∃ log b',
      run_inserts ops b0 = Some (log, b')
      ∧ Earlier.run_inserts ops b0 = Some (earlier_results log, b').
Proof.
  intros Hnew Hops.
  pose proof (New_wf make_limit zeroT config b0 Hnew) as Hwf.
  assert (Earlier.New make_limit zeroT config = Some b0
          ∧ orders_bounded b0 ∧ orderCounter b0 = 0) as (Hsame & Hb & Hc).
  { apply New_Some in Hnew as (Hcap & _ & Hlimit & ->).
    unfold Earlier.New, make, orders_bounded.
    destruct (Z.ltb_spec (Capacity config) 0); [lia|].
    destruct (Z.gtb_spec (Capacity config) (Z.of_N make_limit)); [lia|].
    simpl. split; [done|]. split; [|done]. by apply Forall_replicate. }
  split; [done|]. apply Earlier_run_agrees; try done; lia.
Qed.

(** X18.  The earlier [New] does not validate: for a capacity of 0, which
    the final [New] refuses with [ErrInvalidCapacity], it returns a buffer
    without slots, on which every [Insert] panics. *)
Theorem Earlier_New_unvalidated (config : Config) :
  Capacity config = 0 →
  New make_limit zeroT config = Some (None, Some ErrInvalidCapacity)
  ∧ ∃ b, Earlier.New make_limit zeroT config = Some b
         ∧ elements b = [] ∧ size b = 0
         ∧ ∀ value priority, Earlier.Insert value priority b = None.
Proof.
  intros Hzero. unfold New, Earlier.New, make. rewrite Hzero. simpl.
  destruct (Z.gtb_spec 0 (Z.of_N make_limit)); [lia|]. simpl.
  split; [done|]. eexists. split; [done|]. split; [done|]. split; [done|].
  intros v p. unfold Earlier.Insert. simpl.
  by destruct (OverwriteGuard config).
Qed.

End EarlierIteration.

(** ** The further properties on concrete buffers *)

Lemma two_5_15_built :
  built (config_of 3 0 false) [(1, 5); (2, 15)] = Some two_5_15.
Proof. reflexivity. Qed.

Lemma full_window2_built :
  built (config_of 3 2 false) [(1, -3); (2, -2); (3, -1)] = Some full_window2.
Proof. reflexivity. Qed.

Lemma two_window1_built :
  built (config_of 3 1 false) [(1, 5); (2, 15)] = Some two_window1.
Proof. reflexivity. Qed.

Lemma wf_built config ops b : built config ops = Some b → wf b.
Proof. intros Hb. by eapply reachable_wf, built_reachable. Qed.

Lemma Dequeue_pops_head_witness :
  wf three_5_15_10 ∧ size three_5_15_10 ≠ 0
  ∧ ∃ e rest b',
      live three_5_15_10 = e :: rest
      ∧ Dequeue 0 three_5_15_10 = Some ((e, None), b')
      ∧ e = element_of 1 5 0
      ∧ live b' = rest
      ∧ size b' = 2 ∧ head b' = 1 ∧ tail b' = 0
      ∧ elements b' = elements three_5_15_10
      ∧ orderCounter b' = 3.
Proof.
  assert (wf three_5_15_10) as Hwf by exact (wf_built _ _ _ three_5_15_10_built).
  assert (size three_5_15_10 ≠ 0) as Hnz by done.
  split; [done|]. split; [done|].
  destruct (Dequeue_pops_head 0 three_5_15_10 Hwf Hnz)
    as (e & rest & b' & H1 & H2 & H3 & H4 & H5 & H6 & H7 & H8).
  exists e, rest, b'. split; [done|]. split; [done|].
  split; [vm_compute in H1; by injection H1 as <- _|].
  by rewrite H3, H4, H5, H6, H7, H8.
Defined.

Lemma Peek_is_next_Dequeue_witness :
  wf full55 ∧ size full55 ≠ 0
  ∧ ∃ e b',
      Peek 0 full55 = Some ((e, None), full55)
      ∧ Dequeue 0 full55 = Some ((e, None), b')
      ∧ live full55 !! 0%nat = Some e.
Proof.
  assert (wf full55) as Hwf by exact (wf_built _ _ _ full55_built).
  assert (size full55 ≠ 0) as Hnz by done.
  split; [done|]. split; [done|].
  exact (Peek_is_next_Dequeue 0 full55 Hwf Hnz).
Defined.

Lemma Dequeue_drains_live_witness :
  wf three_5_15_10
  ∧ Len three_5_15_10 = Some (3, three_5_15_10)
  ∧ ∃ b',
      run_dequeues 0 3 three_5_15_10
      = Some ([(element_of 1 5 0, None); (element_of 2 15 1, None);
               (element_of 3 10 2, None)], b')
      ∧ size b' = 0 ∧ live b' = []
      ∧ Dequeue 0 b' = Some ((zeroElement 0, Some ErrBufferEmpty), b').
Proof.
  assert (wf three_5_15_10) as Hwf by exact (wf_built _ _ _ three_5_15_10_built).
  split; [done|].
  destruct (Dequeue_drains_live 0 three_5_15_10 Hwf) as [Hlen Hdrain].
  split; [exact Hlen|exact Hdrain].
Defined.

Lemma Inserts_with_room_witness :
  wf fresh2 ∧ size fresh2 + 2 <= capacity fresh2
  ∧ ∃ log b',
      run_inserts [(1, 5); (2, 5)] fresh2 = Some (log, b')
      ∧ Forall (λ x, x.1.2 = None) log
      ∧ size b' = 2 ∧ head b' = 0 ∧ tail b' = 0 ∧ capacity b' = 2.
Proof.
  assert (wf fresh2) as Hwf by exact (wf_built _ _ _ fresh2_built).
  assert (size fresh2 + Z.of_nat (length [(1, 5); (2, 5)])
          <= capacity fresh2) as Hroom by (simpl; lia).
  split; [done|]. split; [simpl; lia|].
  exact (Inserts_with_room [(1, 5); (2, 5)] fresh2 Hwf Hroom).
Defined.

Lemma Insert_window0_fifo_witness :
  wf two_5_15 ∧ bubbleWindow two_5_15 = 0
  ∧ Insert 3 10 two_5_15 = Some (None, three_5_15_10)
  ∧ elements three_5_15_10
    = [element_of 1 5 0; element_of 2 15 1; element_of 3 10 2]
  ∧ live three_5_15_10 = live two_5_15 ++ [element_of 3 10 2].
Proof.
  assert (wf two_5_15) as Hwf by exact (wf_built _ _ _ two_5_15_built).
  assert (Insert 3 10 two_5_15 = Some (None, three_5_15_10)) as Hins
    by reflexivity.
  split; [done|]. split; [done|]. split; [done|].
  exact (Insert_window0_fifo 3 10 two_5_15 three_5_15_10 Hwf eq_refl Hins).
Defined.

Lemma Insert_full_unguarded_witness :
  wf full_window2 ∧ size full_window2 = capacity full_window2
  ∧ overwriteGuard full_window2 = false
  ∧ ∃ b' victim rest,
      Insert 4 (-5) full_window2 = Some (None, b')
      ∧ live full_window2 = victim :: rest
      ∧ live b' ≡ₚ rest ++ [element_of 4 (-5) 3]
      ∧ size b' = 3 ∧ head b' = 1.
Proof.
  assert (wf full_window2) as Hwf by exact (wf_built _ _ _ full_window2_built).
  split; [done|]. split; [done|]. split; [done|].
  exact (Insert_full_unguarded 4 (-5) full_window2 Hwf eq_refl eq_refl).
Defined.

Lemma PeekMaxPriority_after_greatest_Insert_witness :
  wf full_window2
  ∧ (size full_window2 = capacity full_window2 ∨ bubbleWindow full_window2 = 0)
  ∧ (∀ e, e ∈ live full_window2 → Priority e < 7)
  ∧ ∃ b', Insert 4 7 full_window2 = Some (None, b')
          ∧ PeekMaxPriority 0 b' = Some ((element_of 4 7 3, None), b').
Proof.
  assert (wf full_window2) as Hwf by exact (wf_built _ _ _ full_window2_built).
  assert (∀ e, e ∈ live full_window2 → Priority e < 7) as Hgreatest.
  { change (live full_window2)
      with [element_of 3 (-1) 2; element_of 2 (-2) 1; element_of 1 (-3) 0].
    intros e He.
    repeat (apply elem_of_cons in He as [->|He]; [simpl; lia|]).
    by apply elem_of_nil in He. }
  split; [done|]. split; [by left|]. split; [done|].
  eexists. split; [reflexivity|].
  exact (PeekMaxPriority_after_greatest_Insert 0 4 7 full_window2 _ Hwf
           (or_introl eq_refl) Hgreatest eq_refl).
Defined.

Lemma Search_filters_append_witness :
  wf three_5_15_10
  ∧ ∃ rf rg r,
      Search [SearchByMinPriority 10] three_5_15_10
      = Some (rf, three_5_15_10)
      ∧ Search [SearchByPriority 10] three_5_15_10 = Some (rg, three_5_15_10)
      ∧ Search ([SearchByMinPriority 10] ++ [SearchByPriority 10])
          three_5_15_10
        = Some (r, three_5_15_10)
      ∧ r = List.filter (matches_at [SearchByPriority 10] three_5_15_10) rf
      ∧ ∀ i, i ∈ r ↔ i ∈ rf ∧ i ∈ rg.
Proof.
  assert (wf three_5_15_10) as Hwf by exact (wf_built _ _ _ three_5_15_10_built).
  split; [done|].
  exact (Search_filters_append [SearchByMinPriority 10] [SearchByPriority 10]
           three_5_15_10 Hwf).
Defined.

Lemma Search_by_constructors_witness :
  wf three_5_15_10
  ∧ ∃ rv rp rm,
      Search [SearchByValue 2] three_5_15_10 = Some (rv, three_5_15_10)
      ∧ Search [SearchByPriority 5] three_5_15_10 = Some (rp, three_5_15_10)
      ∧ Search [SearchByMinPriority 10] three_5_15_10
        = Some (rm, three_5_15_10)
      ∧ rv = [1] ∧ rp = [0] ∧ rm = [1; 2].
Proof.
  assert (wf three_5_15_10) as Hwf by exact (wf_built _ _ _ three_5_15_10_built).
  split; [done|].
  destruct (Search_by_constructors 2 5 10 three_5_15_10 Hwf)
    as (rv & rp & rm & Hv & Hp & Hm & _).
  exists rv, rp, rm. split; [done|]. split; [done|]. split; [done|].
  vm_compute in Hv, Hp, Hm.
  injection Hv as <-. injection Hp as <-. injection Hm as <-. done.
Defined.

Lemma Search_above_PeekMaxPriority_witness :
  wf three_5_15_10
  ∧ PeekMaxPriority 0 three_5_15_10
    = Some ((element_of 2 15 1, None), three_5_15_10)
  ∧ Priority (element_of 2 15 1) < 2 ^ 63 - 1
  ∧ Search [SearchByMinPriority 16] three_5_15_10 = Some ([], three_5_15_10)
  ∧ ∃ k rest, Search [SearchByPriority 15] three_5_15_10
              = Some (k :: rest, three_5_15_10).
Proof.
  assert (wf three_5_15_10) as Hwf by exact (wf_built _ _ _ three_5_15_10_built).
  assert (PeekMaxPriority 0 three_5_15_10
          = Some ((element_of 2 15 1, None), three_5_15_10)) as Hpeek
    by reflexivity.
  assert (Priority (element_of 2 15 1) < 2 ^ 63 - 1) as Hbelow
    by (simpl; lia).
  split; [done|]. split; [done|]. split; [done|].
  exact (Search_above_PeekMaxPriority 0 three_5_15_10 _ _ Hwf Hpeek Hbelow).
Defined.

Lemma configuration_is_fixed_witness :
  New built_make_limit 0 (config_of 3 2 false)
  = Some (Some {| elements := [zeroElement 0; zeroElement 0; zeroElement 0];
                  capacity := 3; head := 0; tail := 0; size := 0;
                  bubbleWindow := 2; orderCounter := 0;
                  overwriteGuard := false |}, None)
  ∧ calls 0 {| elements := [zeroElement 0; zeroElement 0; zeroElement 0];
               capacity := 3; head := 0; tail := 0; size := 0;
               bubbleWindow := 2; orderCounter := 0;
               overwriteGuard := false |} two_of_three
  ∧ capacity two_of_three = 3 ∧ bubbleWindow two_of_three = 2
  ∧ overwriteGuard two_of_three = false
  ∧ Z.of_nat (length (elements two_of_three)) = 3.
Proof.
  set (b0 := {| elements := [zeroElement 0; zeroElement 0; zeroElement 0];
                capacity := 3; head := 0; tail := 0; size := 0;
                bubbleWindow := 2; orderCounter := 0;
                overwriteGuard := false |}).
  assert (New built_make_limit 0 (config_of 3 2 false)
          = Some (Some b0, None)) as Hnew by reflexivity.
  assert (calls 0 b0 two_of_three) as Hcalls.
  { apply (calls_step 0 b0 one_of_three);
      [by apply (step_Insert 0 b0 10 1 None)|].
    apply (calls_step 0 one_of_three two_of_three);
      [by apply (step_Insert 0 one_of_three 20 2 None)|].
    apply calls_none. }
  split; [done|]. split; [done|].
  exact (configuration_is_fixed built_make_limit 0 (config_of 3 2 false) b0
           two_of_three Hnew Hcalls).
Defined.

Lemma step_keeps_orders_bounded_witness :
  wf full55 ∧ orders_bounded full55
  ∧ - 2 ^ 63 <= orderCounter full55 < 2 ^ 63 - 1
  ∧ ∃ b', step 0 full55 b'
          ∧ orders_bounded b'
          ∧ orderCounter full55 <= orderCounter b' <= orderCounter full55 + 1.
Proof.
  assert (wf full55) as Hwf by exact (wf_built _ _ _ full55_built).
  assert (orders_bounded full55) as Hbound.
  { unfold orders_bounded. simpl. repeat constructor; simpl; lia. }
  assert (- 2 ^ 63 <= orderCounter full55 < 2 ^ 63 - 1) as Hrange
    by (simpl; lia).
  split; [done|]. split; [done|]. split; [done|].
  eexists. split.
  - by apply (step_Insert 0 full55 3 6 None).
  - apply (step_keeps_orders_bounded 0 full55 _ Hwf Hbound Hrange).
    by apply (step_Insert 0 full55 3 6 None).
Defined.

Lemma slots_come_from_accepted_witness :
  wf fresh1_guarded
  ∧ ∃ log b',
      run_inserts [(1, 5); (2, 5); (3, 6)] fresh1_guarded = Some (log, b')
      ∧ accepted log = [element_of 1 5 0; element_of 3 6 2]
      ∧ elements b' = [element_of 3 6 2]
      ∧ elements b' ⊆+ elements fresh1_guarded ++ accepted log
      ∧ length (elements b') = length (elements fresh1_guarded)
      ∧ ∀ e, e ∈ elements b' → e ∈ elements fresh1_guarded ∨ e ∈ accepted log.
Proof.
  assert (wf fresh1_guarded) as Hwf
    by exact (wf_built _ _ _ fresh1_guarded_built).
  split; [done|]. eexists _, _.
  split; [reflexivity|]. split; [reflexivity|]. split; [reflexivity|].
  exact (slots_come_from_accepted [(1, 5); (2, 5); (3, 6)] fresh1_guarded
           _ _ Hwf eq_refl).
Defined.

Lemma Insert_reorders_within_window_witness :
  wf two_window1
  ∧ ∃ b',
      Insert 3 20 two_window1 = Some (None, b')
      ∧ elements b'
        = [element_of 2 15 1; element_of 3 20 2; element_of 1 5 0]
      ∧ (∃ k, 0 <= k <= bubbleWindow two_window1
              ∧ slice_get (elements b')
                  (slots_before (capacity two_window1) (tail two_window1) k)
                = Some (element_of 3 20 2))
      ∧ ∀ j, 0 <= j < capacity two_window1 →
             bubbleWindow two_window1
             < (tail two_window1 - j) mod capacity two_window1 →
             slice_get (elements b') j = slice_get (elements two_window1) j.
Proof.
  assert (wf two_window1) as Hwf by exact (wf_built _ _ _ two_window1_built).
  split; [done|]. eexists.
  split; [reflexivity|]. split; [reflexivity|].
  exact (Insert_reorders_within_window 3 20 two_window1 _ Hwf eq_refl).
Defined.

Lemma Earlier_agrees_witness :
  wf full55 ∧ orders_bounded full55
  ∧ (∃ r b', Insert 3 5 full55 = Some (r, b')
             ∧ r = Some ErrBufferFull
             ∧ Earlier.Insert 3 5 full55 = Some (earlier_error <$> r, b'))
  ∧ (∃ e r b', Dequeue 0 full55 = Some ((e, r), b')
               ∧ Earlier.Dequeue 0 full55
                 = Some ((e, earlier_error <$> r), b'))
  ∧ (∃ e r, Peek 0 full55 = Some ((e, r), full55)
            ∧ Earlier.PeekHead 0 full55
              = Some ((e, earlier_error <$> r), full55))
  ∧ Earlier.Size full55 = Len full55
  ∧ Earlier.Capacity full55 = Some (2, full55).
Proof.
  assert (wf full55) as Hwf by exact (wf_built _ _ _ full55_built).
  assert (orders_bounded full55) as Hbound.
  { unfold orders_bounded. simpl. repeat constructor; simpl; lia. }
  split; [done|]. split; [done|].
  destruct (Earlier_agrees 0 3 5 full55 Hwf Hbound)
    as ((r & b' & Hins & Hearlier) & Hrest).
  split; [|exact Hrest].
  exists r, b'. split; [done|]. split; [|done].
  vm_compute in Hins. by injection Hins as <- _.
Defined.

Lemma Earlier_New_and_Inserts_agree_witness :
  New built_make_limit 0 (config_of 2 1 false) = Some (Some fresh2, None)
  ∧ Z.of_nat (length [(1, 5); (2, 7); (3, 6)]) < 2 ^ 63
  ∧ Earlier.New built_make_limit 0 (config_of 2 1 false) = Some fresh2
  ∧ ∃ log b',
      run_inserts [(1, 5); (2, 7); (3, 6)] fresh2 = Some (log, b')
      ∧ Earlier.run_inserts [(1, 5); (2, 7); (3, 6)] fresh2
        = Some (earlier_results log, b').
Proof.
  assert (New built_make_limit 0 (config_of 2 1 false)
          = Some (Some fresh2, None)) as Hnew by reflexivity.
  assert (Z.of_nat (length [(1, 5); (2, 7); (3, 6)]) < 2 ^ 63) as Hlen
    by (simpl; lia).
  split; [done|]. split; [done|].
  exact (Earlier_New_and_Inserts_agree built_make_limit 0
           (config_of 2 1 false) fresh2 [(1, 5); (2, 7); (3, 6)] Hnew Hlen).
Defined.

Lemma Earlier_New_unvalidated_witness :
  Capacity (config_of 0 0 false) = 0
  ∧ New built_make_limit 0 (config_of 0 0 false)
    = Some (None, Some ErrInvalidCapacity)
  ∧ ∃ b, Earlier.New built_make_limit 0 (config_of 0 0 false) = Some b
         ∧ elements b = [] ∧ size b = 0
         ∧ ∀ value priority, Earlier.Insert value priority b = None.
Proof.
  split; [reflexivity|].
  exact (Earlier_New_unvalidated built_make_limit 0 (config_of 0 0 false)
           eq_refl).
Defined.
